(** * md_to_html.py: Markdown to WeChat-styled HTML

    A shallow embedding of [scripts/md_to_html.py] and the properties its
    specification states about it.

    Text.  A Python [str] is a sequence of Unicode code points; it is
    modelled as [text := list N], one number per code point, so that the
    positions of [re] match spans and of [list(content)] are list indices.
    ASCII literals of the source are written [u "..."].

    Document tree.  The [BeautifulSoup] tree is a rose tree of [node]s; an
    element is addressed by its path of child indices, which plays the part
    of the object identity the Python code relies on when it mutates the
    elements that [find_all] returned.

    Environment.  The module's globals are a [Config]; the remote service is
    a function from the number of the call and the request to the answer;
    the files are a [FileSystem] that the functions pass along.  The
    libraries whose work the program only passes on ([markdown], the parser
    and the printer of [bs4], [mimetypes], [pathlib]) are variables of the
    section that holds the program.

    Layout.  The data and the library functions the program relies on; the
    program, function by function in the order of the source; the
    vocabulary of the specification; the proofs. *)

From Stdlib Require Import List String Ascii NArith Arith Lia Bool.
From Stdlib Require Import DecimalString.
From Stdlib Require Import ZArith Zify.
Import ListNotations.
Open Scope string_scope.
Open Scope list_scope.

(** * The data of the program *)

(** ** Text *)

Definition text := list N.

Definition u (s : string) : text := map N_of_ascii (list_ascii_of_string s).

(** The line feed and the double quote of the source's literals. *)
Definition LF : text := [10%N].
Definition quot : text := [34%N].

Fixpoint text_eqb (a b : text) : bool :=
  match a, b with
  | [], [] => true
  | x :: a', y :: b' => N.eqb x y && text_eqb a' b'
  | _, _ => false
  end.

(** [s.startswith(p)]. *)
Fixpoint starts_with (p s : text) : bool :=
  match p, s with
  | [], _ => true
  | x :: p', y :: s' => N.eqb x y && starts_with p' s'
  | _ :: _, [] => false
  end.

(** [str.isspace] for one code point, which is also what [\s] matches in a
    [str] pattern: the Unicode white space characters. *)
Definition is_space (c : N) : bool :=
  ((9 <=? c) && (c <=? 13) || (28 <=? c) && (c <=? 32)
   || (c =? 133) || (c =? 160) || (c =? 5760)
   || (8192 <=? c) && (c <=? 8202)
   || (c =? 8232) || (c =? 8233) || (c =? 8239) || (c =? 8287)
   || (c =? 12288))%N.

Fixpoint lstrip (s : text) : text :=
  match s with
  | c :: s' => if is_space c then lstrip s' else s
  | [] => []
  end.

(** [str.strip()]. *)
Definition strip (s : text) : text := rev (lstrip (rev (lstrip s))).

(** [str(n)] for a natural number. *)
Definition str_of_N (n : N) : text := u (NilZero.string_of_uint (N.to_uint n)).

(** ** Regular expressions *)

(** One match of [re]: its span, as [match.span()] gives it, and the texts
    of its groups, [group(1)] first. *)
Record Match := {
  span_start : nat;
  span_end : nat;
  groups : list text
}.

Definition group (k : nat) (m : Match) : text := nth (k - 1) (groups m) [].

(** A pattern, as what it matches at the head of a text: the groups and
    the number of code points matched. *)
Definition matcher := text -> option (list text * nat).

(** [re.finditer]: the scan moves one position at a time; after a match
    that covers [n] positions the next [n - 1] are passed over, so matches
    do not overlap.  [pos] is the position of the head of [s]. *)
Fixpoint finditer_from (m : matcher) (pos skip : nat) (s : text)
  : list Match :=
  match s with
  | [] => []
  | _ :: s' =>
      match skip with
      | S k => finditer_from m (S pos) k s'
      | O =>
          match m s with
          | Some (gs, n) =>
              {| span_start := pos; span_end := pos + n; groups := gs |}
                :: finditer_from m (S pos) (n - 1) s'
          | None => finditer_from m (S pos) 0 s'
          end
      end
  end.

Definition finditer (m : matcher) (s : text) : list Match :=
  finditer_from m 0 0 s.

(** The longest prefix without a code point that [stop] holds of, and the
    rest. *)
Fixpoint break_on (stop : N -> bool) (s : text) : text * text :=
  match s with
  | [] => ([], [])
  | c :: s' =>
      if stop c then ([], s)
      else let '(a, b) := break_on stop s' in (c :: a, b)
  end.

Definition ascii_lower (c : N) : N :=
  if ((65 <=? c) && (c <=? 90))%N then (c + 32)%N else c.

(** One literal character of a pattern under [re.IGNORECASE]: the two
    cases of a letter, and for the letter i also U+0130 and U+0131, which
    Python's case folding of patterns pairs with it. *)
Definition ignorecase_eq (p c : N) : bool :=
  (ascii_lower p =? ascii_lower c)%N
  || ((ascii_lower p =? 105) && ((c =? 304) || (c =? 305)))%N.

(** A literal under [re.IGNORECASE] at the head of [s]: what follows it. *)
Fixpoint match_literal_ignorecase (literal s : text) : option text :=
  match literal, s with
  | [], _ => Some s
  | p :: literal', c :: s' =>
      if ignorecase_eq p c then match_literal_ignorecase literal' s'
      else None
  | _ :: _, [] => None
  end.

(** [(.*?)\)]: the shortest run of code points other than the line feed
    that a closing parenthesis follows. *)
Fixpoint lazy_until_paren (s : text) : option text :=
  match s with
  | [] => None
  | c :: s' =>
      if (c =? 41)%N then Some []
      else if (c =? 10)%N then None
      else option_map (cons c) (lazy_until_paren s')
  end.

(** The pattern of [process_images], [!\[Image\]\((.*?)\)] with
    [re.IGNORECASE]. *)
Definition image_marker : matcher :=
  fun s =>
    match match_literal_ignorecase (u "![Image](") s with
    | Some s1 =>
        match lazy_until_paren s1 with
        | Some desc => Some ([desc], 9 + List.length desc + 1)
        | None => None
        end
    | None => None
    end.

(** [(?!data:|https?://)] at the head of [s]. *)
Definition not_embedded_or_remote (s : text) : bool :=
  negb (starts_with (u "data:") s || starts_with (u "http://") s
        || starts_with (u "https://") s).

(** The pattern of [embed_local_images]: an exclamation mark and an
    opening bracket; group 1, any run of code points other than the closing
    bracket; the closing bracket and an opening parenthesis; the negative
    lookahead for [data:], [http://] and [https://]; group 2, a run of one
    or more code points other than the closing parenthesis; the closing
    parenthesis.  Both runs are greedy and each is stopped only by the
    code point it excludes, so the match is determined. *)
Definition local_image : matcher :=
  fun s =>
    match s with
    | c0 :: c1 :: s1 =>
        if ((c0 =? 33) && (c1 =? 91))%N then
          let '(alt_text, s2) := break_on (N.eqb 93) s1 in
          match s2 with
          | c2 :: c3 :: s3 =>
              if ((c2 =? 93) && (c3 =? 40))%N
                 && not_embedded_or_remote s3 then
                let '(img_path_str, s4) := break_on (N.eqb 41) s3 in
                match img_path_str, s4 with
                | _ :: _, c4 :: _ =>
                    if (c4 =? 41)%N then
                      Some ([alt_text; img_path_str],
                            2 + List.length alt_text + 2
                            + List.length img_path_str + 1)
                    else None
                | _, _ => None
                end
              else None
          | _ => None
          end
        else None
    | _ => None
    end.

(** [.+] followed by [$] under [re.MULTILINE]: the rest of the line, which
    must not be empty. *)
Definition rest_of_line (s : text) : option text :=
  match fst (break_on (N.eqb 10) s) with
  | [] => None
  | line => Some line
  end.

(** The tail of [\s+(.+)$] once the first white space is matched: [ws] is
    the white space that follows and [rest] what follows it.  The greedy
    [\s+] takes all of [ws] first and gives it back one code point at a
    time until the rest of the pattern matches. *)
Fixpoint greedy_space (ws rest : text) : option text :=
  match ws with
  | [] => rest_of_line rest
  | w :: ws' =>
      match greedy_space ws' rest with
      | Some title => Some title
      | None => rest_of_line (ws ++ rest)
      end
  end.

(** [#\s+(.+)$] at the head of [s], which is at the start of a line. *)
Definition title_line (s : text) : option text :=
  match s with
  | c :: w :: s1 =>
      if (c =? 35)%N && is_space w then
        let '(ws, rest) := break_on (fun c => negb (is_space c)) s1 in
        greedy_space ws rest
      else None
  | _ => None
  end.

(** [re.search(r'^#\s+(.+)$', content, re.MULTILINE)]: [group(1)] of the
    leftmost match; [^] holds at the start and after every line feed. *)
Fixpoint search_title (line_start : bool) (s : text) : option text :=
  match s with
  | [] => None
  | c :: s' =>
      match (if line_start then title_line s else None) with
      | Some title => Some title
      | None => search_title (c =? 10)%N s'
      end
  end.

(** ** Replacing spans *)

Definition replacement : Type := nat * nat * text.

(** [new_content[start:end] = list(replacement)]. *)
Definition slice_assign (new_content : text) (r : replacement) : text :=
  let '(start, stop, replacement) := r in
  firstn start new_content ++ replacement
    ++ skipn (Nat.max start stop) new_content.

(** [for (start, end), replacement in reversed(replacements): ...]. *)
Definition apply_replacements (content : text)
    (replacements : list replacement) : text :=
  fold_left slice_assign (rev replacements) content.

(** ** The document tree *)

(** [Tag]: an element, with its attributes in the order of the [attrs]
    dict.  [NavigableString]: a text node.  [Special]: a string of one of
    the classes that [get_text] passes over (comments, the doctype,
    declarations, and the strings inside script, style, template, rt and
    rp elements). *)
#[local] Unset Elimination Schemes.
Inductive node : Type :=
| Tag (name : string) (attrs : list (string * text)) (contents : list node)
| NavigableString (s : text)
| Special (s : text).
#[local] Set Elimination Schemes.

(** The [BeautifulSoup] object: a root named [[document]] and its contents. *)
Definition soup := list node.

Definition document : string := "[document]".

Definition path := list nat.

(** Induction over a tree, with the hypothesis for every child. *)
Fixpoint node_rect' (P : node -> Type) (Q : list node -> Type)
    (Hnil : Q [])
    (Hcons : forall n l, P n -> Q l -> Q (n :: l))
    (Htag : forall name attrs contents, Q contents -> P (Tag name attrs contents))
    (Hstr : forall s, P (NavigableString s))
    (Hspecial : forall s, P (Special s))
    (n : node) : P n :=
  match n with
  | Tag name attrs contents =>
      Htag name attrs contents
        ((fix go (l : list node) : Q l :=
            match l with
            | [] => Hnil
            | k :: l' =>
                Hcons k l'
                  (node_rect' P Q Hnil Hcons Htag Hstr Hspecial k) (go l')
            end) contents)
  | NavigableString s => Hstr s
  | Special s => Hspecial s
  end.

(** *** Attributes *)

(** [element.get(key)]: [None] when the attribute is absent. *)
Fixpoint get_attr (attrs : list (string * text)) (key : string) : option text :=
  match attrs with
  | [] => None
  | (k, v) :: rest => if String.eqb k key then Some v else get_attr rest key
  end.

(** [element.get(key, default)]. *)
Definition get (attrs : list (string * text)) (key : string) (default : text)
  : text :=
  match get_attr attrs key with
  | Some v => v
  | None => default
  end.

(** [element[key] = value]: an existing key keeps its place in the dict, a
    new one goes last. *)
Fixpoint set_attr (attrs : list (string * text)) (key : string) (value : text)
  : list (string * text) :=
  match attrs with
  | [] => [(key, value)]
  | (k, v) :: rest =>
      if String.eqb k key then (k, value) :: rest
      else (k, v) :: set_attr rest key value
  end.

(** *** Searching and addressing *)

(** The paths [f] finds below each of the children [l], the first child
    having index [i], in document order. *)
Definition below (f : node -> list path) : nat -> list node -> list path :=
  fix go (i : nat) (l : list node) : list path :=
    match l with
    | [] => []
    | k :: l' => map (cons i) (f k) ++ go (S i) l'
    end.

(** The elements named [tag] in the subtree of [n], [n] included, by their
    paths from [n], in document order. *)
Fixpoint find_all_from (tag : string) (n : node) : list path :=
  match n with
  | Tag name _ contents =>
      (if String.eqb name tag then [[]] else [])
        ++ below (find_all_from tag) 0 contents
  | _ => []
  end.

(** [element.find_all(tag)] over the descendants of an element (or of the
    soup) with contents [l]. *)
Definition find_all (tag : string) (l : list node) : list path :=
  below (find_all_from tag) 0 l.

(** [element.find(tag)]: the first result of [find_all], if any. *)
Definition find (tag : string) (l : list node) : option path :=
  hd_error (find_all tag l).

(** The node at a path below [l], with the name of its parent ([parent] is
    the name of the node whose contents [l] is). *)
Fixpoint lookup (parent : string) (l : list node) (p : path)
  : option (string * node) :=
  match p with
  | [] => None
  | i :: p' =>
      match nth_error l i with
      | None => None
      | Some n =>
          match p' with
          | [] => Some (parent, n)
          | _ :: _ =>
              match n with
              | Tag name _ contents => lookup name contents p'
              | _ => None
              end
          end
      end
  end.

(** Replace the node at a path by its image under [f]. *)
Fixpoint update_nth {A} (i : nat) (f : A -> A) (l : list A) : list A :=
  match l, i with
  | [], _ => []
  | x :: l', O => f x :: l'
  | x :: l', S i' => x :: update_nth i' f l'
  end.

Fixpoint update_at (p : path) (f : node -> node) (l : list node) : list node :=
  match p with
  | [] => l
  | [i] => update_nth i f l
  | i :: p' =>
      update_nth i
        (fun n =>
           match n with
           | Tag name attrs contents => Tag name attrs (update_at p' f contents)
           | _ => n
           end) l
  end.

(** ** Files *)

Definition bytes := list N.

Record FileSystem := {
  (** the answer of [path.exists()], [None] when it raises (a name that is
      too long, a directory that cannot be searched) *)
  path_exists : text -> option bool;
  (** the bytes [open(path, "rb").read()] gives, [None] when it raises *)
  file_bytes : text -> option bytes;
  (** whether [path.write_bytes] succeeds; it raises otherwise *)
  writable : text -> bool
}.

(** The files after a [path.write_bytes(data)] that succeeds. *)
Definition write_bytes (fs : FileSystem) (p : text) (d : bytes)
  : FileSystem :=
  {| path_exists :=
       fun q => if text_eqb q p then Some true else path_exists fs q;
     file_bytes := fun q => if text_eqb q p then Some d else file_bytes fs q;
     writable := writable fs |}.

(** ** Base64 *)

Definition b64_alphabet : text :=
  u "ABCDEFGHIJKLMNOPQRSTUVWXYZabcdefghijklmnopqrstuvwxyz0123456789+/".

Definition b64_char (i : N) : N := nth (N.to_nat i) b64_alphabet 61%N.

(** [base64.b64encode(data).decode("utf-8")]. *)
Fixpoint b64encode (d : bytes) : text :=
  match d with
  | [] => []
  | [a] =>
      [b64_char (a / 4); b64_char ((a mod 4) * 16); 61; 61]%N
  | [a; b] =>
      [b64_char (a / 4); b64_char ((a mod 4) * 16 + b / 16);
       b64_char ((b mod 16) * 4); 61]%N
  | a :: b :: c :: d' =>
      [b64_char (a / 4); b64_char ((a mod 4) * 16 + b / 16);
       b64_char ((b mod 16) * 4 + c / 64); b64_char (c mod 64)]%N
        ++ b64encode d'
  end.

(** ** Logging *)

Inductive Level := INFO | WARNING | ERROR.

(** One record of the [WeChatGen] logger. *)
Record LogRecord := { level : Level; message : text }.

(** ** Core configuration and the generative model client *)

Inductive MediaResolution :=
| MEDIA_RESOLUTION_LOW
| MEDIA_RESOLUTION_MEDIUM
| MEDIA_RESOLUTION_HIGH.

(** [types.Tool(google_search=types.GoogleSearch())]. *)
Inductive Tool := GoogleSearch.

Record GenerateContentConfig := { tools : option (list Tool) }.

(** The arguments of one [client.models.generate_content] call. *)
Record Request := {
  req_model : text;
  req_contents : text;
  req_config : option GenerateContentConfig
}.

Record Blob := { blob_data : option bytes }.
Record Part := { inline_data : option Blob }.

(** A response: [response.text], and for each candidate its
    [content.parts] ([None] when there is none). *)
Record Response := {
  response_text : option text;
  candidates : list (option (list Part))
}.

(** The remote service: the answer to the [k]-th call of the run, [None]
    when the call raises. *)
Record Client := { generate_content : nat -> Request -> option Response }.

(** The module's globals.  [client] is [None] when [GOOGLE_API_KEY] is not
    set or the client could not be created. *)
Record Config := {
  IMG_MODEL_NAME : text;
  TEXT_MODEL_NAME : text;
  IMAGE_RESOLUTION : text;
  ENABLE_SEARCH : bool;
  client : option Client
}.

(** * The program *)

Section Pipeline.

(** The globals of the module. *)
Variable cfg : Config.
(** [int(time.time() * 1000)] at the [i]-th placeholder. *)
Variable time_ms : nat -> N.
(** [base / name] of [pathlib], as the text of the resulting path. *)
Variable joinpath : text -> text -> text.
(** [mimetypes.guess_type(path)[0]]. *)
Variable guess_type : text -> option text.
(** [markdown.markdown(content, extensions=...)]. *)
Variable markdown : text -> text.
(** [BeautifulSoup(html, "html.parser")] and [str(soup)], the library's
    parser and printer. *)
Variable BeautifulSoup : text -> soup.
Variable str : soup -> text.
(** [load_css()]: the text of the bundled style sheet, empty when the file
    is not there. *)
Variable load_css : text.

(** ** Image generation module *)

(** The literal [sys_prompt] of [expand_prompt]. *)
Definition sys_prompt : text :=
  List.concat
    [ LF;
      u "        " ++ [20320; 26159; 19968; 20010; 19987; 19994; 30340]%N
        ++ u " AI "
        ++ [32472; 30011; 25552; 31034; 35789; 19987; 23478; 12290;
            35831; 26681; 25454; 20197; 19979; 31616; 21333; 30340;
            30011; 38754; 25551; 36848; 65292; 25193; 20889; 25104;
            19968; 27573; 35814; 32454; 30340; 33521; 25991; 32472;
            22270]%N
        ++ u " Prompt" ++ [12290]%N ++ LF;
      u "        " ++ [35201; 27714]%N ++ u ":" ++ LF;
      u "        1. " ++ [39118; 26684]%N ++ u ": "
        ++ [29616; 20195; 26497; 31616; 20027; 20041; 25554; 30011;
            65292; 24179; 38754; 39118; 26684; 65292; 26580; 21644;
            26262; 33394; 35843]%N
        ++ u "(Morandi colors)"
        ++ [65292; 36866; 21512; 24494; 20449; 20844; 20247; 21495;
            37197; 22270; 12290]%N
        ++ LF;
      u "        2. " ++ [30011; 38754]%N ++ u ": "
        ++ [26500; 22270; 31616; 27905; 65292; 30041; 30333; 36866;
            24230; 65292; 36991; 20813; 36807; 20110; 22797; 26434;
            30340; 32454; 33410; 12290]%N
        ++ LF;
      u "        3. " ++ [20165; 36755; 20986; 33521; 25991]%N ++ u " Prompt"
        ++ [65292; 19981; 35201; 21253; 21547; 20854; 20182; 35299;
            37322; 12290]%N
        ++ LF;
      u "        " ].

Definition placeholder_url : text :=
  u "https://placehold.co/800x400/FFF9E6/FF9E66.png?text=".

(** [f"![{alt}]({target})"]. *)
Definition image_reference (alt target : text) : text :=
  u "![" ++ alt ++ u "](" ++ target ++ u ")".

(** The table of [generate_image_from_prompt] from the resolution setting
    to the enumeration; the function builds it and does not read it. *)
Definition res_map : list (text * MediaResolution) :=
  [ (u "1k", MEDIA_RESOLUTION_LOW);
    (u "2k", MEDIA_RESOLUTION_MEDIUM);
    (u "4k", MEDIA_RESOLUTION_HIGH) ].

Fixpoint res_map_get (m : list (text * MediaResolution)) (key : text)
  : option MediaResolution :=
  match m with
  | [] => None
  | (k, v) :: m' => if text_eqb k key then Some v else res_map_get m' key
  end.

(** [expand_prompt]; [k] numbers the remote call. *)
Definition expand_prompt (k : nat) (description : text) : text :=
  match client cfg with
  | None => description
  | Some c =>
      match
        generate_content c k
          {| req_model := TEXT_MODEL_NAME cfg;
             req_contents :=
               sys_prompt ++ ([10; 10; 21407; 22987; 25551; 36848]%N
                              ++ u ": ") ++ description;
             req_config := None |}
      with
      | Some response =>
          match response_text response with
          | Some t => strip t
          | None => description
          end
      | None => description
      end
  end.

(** The request [generate_image_from_prompt] sends. *)
Definition image_request (prompt : text) : Request :=
  let tools := if ENABLE_SEARCH cfg then [GoogleSearch] else [] in
  let generation_config :=
    {| tools := match tools with [] => None | _ => Some tools end |} in
  {| req_model := IMG_MODEL_NAME cfg;
     req_contents := u "Generate an image of: " ++ prompt;
     req_config := Some generation_config |}.

(** The first part that has [inline_data]. *)
Fixpoint first_inline_data (parts : list Part) : option Blob :=
  match parts with
  | [] => None
  | part :: parts' =>
      match inline_data part with
      | Some blob => Some blob
      | None => first_inline_data parts'
      end
  end.

(** [generate_image_from_prompt]: whether an image was saved, and the
    files afterwards.  Every exception inside the [try] (the call raising,
    a candidate without content, a blob without bytes, a write that fails)
    ends in [False]. *)
Definition generate_image_from_prompt (k : nat) (fs : FileSystem)
    (prompt output_path : text) : bool * FileSystem :=
  match client cfg with
  | None => (false, fs)
  | Some c =>
      match generate_content c k (image_request prompt) with
      | None => (false, fs)
      | Some response =>
          match candidates response with
          | Some (part :: parts) :: _ =>
              match first_inline_data (part :: parts) with
              | Some {| blob_data := Some d |} =>
                  if writable fs output_path
                  then (true, write_bytes fs output_path d)
                  else (false, fs)
              | _ => (false, fs)
              end
          | _ => (false, fs)
          end
      end
  end.

(** [image_to_base64]: [None] when reading the file raises. *)
Definition image_to_base64 (fs : FileSystem) (image_path : text)
  : option text :=
  let mime_type :=
    match guess_type image_path with
    | Some (c :: t) => c :: t
    | _ => u "image/png"
    end in
  match file_bytes fs image_path with
  | Some d => Some (u "data:" ++ mime_type ++ u ";base64," ++ b64encode d)
  | None => None
  end.

(** The loop of [process_images] over the matches; [i] counts them.  The
    result is [None] when [image_to_base64] raises. *)
Fixpoint image_replacements (assets_dir : text) (i : nat) (fs : FileSystem)
    (matches : list Match) : option (list replacement * FileSystem) :=
  match matches with
  | [] => Some ([], fs)
  | m :: matches' =>
      let desc := group 1 m in
      let full_prompt := expand_prompt (2 * i) desc in
      let timestamp := time_ms i in
      let img_filename := u "gen_" ++ str_of_N timestamp ++ u ".png" in
      let img_path := joinpath assets_dir img_filename in
      let '(success, fs1) :=
        generate_image_from_prompt (2 * i + 1) fs full_prompt img_path in
      let next := image_replacements assets_dir (S i) fs1 matches' in
      if success then
        match image_to_base64 fs1 img_path with
        | Some b64_uri =>
            match next with
            | Some (rs, fs2) =>
                Some ((span_start m, span_end m,
                       image_reference desc b64_uri) :: rs, fs2)
            | None => None
            end
        | None => None
        end
      else
        match next with
        | Some (rs, fs2) =>
            Some ((span_start m, span_end m,
                   image_reference desc (placeholder_url ++ desc)) :: rs, fs2)
        | None => None
        end
  end.

(** [process_images]: the new content and the files afterwards. *)
Definition process_images (fs : FileSystem) (content assets_dir : text)
  : option (text * FileSystem) :=
  let matches := finditer image_marker content in
  match image_replacements assets_dir 0 fs matches with
  | Some (replacements, fs') =>
      Some (apply_replacements content replacements, fs')
  | None => None
  end.

(** The loop of [embed_local_images] over the matches: the replacements and
    the log records, in order.  The result is [None] when [exists] or
    [image_to_base64] raises. *)
Fixpoint local_replacements (fs : FileSystem) (base_dir : text)
    (matches : list Match) : option (list replacement * list LogRecord) :=
  match matches with
  | [] => Some ([], [])
  | m :: matches' =>
      let alt_text := group 1 m in
      let img_path_str := group 2 m in
      let img_path := joinpath base_dir img_path_str in
      match path_exists fs img_path with
      | Some true =>
          match image_to_base64 fs img_path with
          | Some b64_uri =>
              match local_replacements fs base_dir matches' with
              | Some (rs, log) =>
                  Some ((span_start m, span_end m,
                         image_reference alt_text b64_uri) :: rs,
                        {| level := INFO;
                           message :=
                             ([20869; 23884; 26412; 22320; 22270; 29255]%N
                              ++ u ": ") ++ img_path |} :: log)
              | None => None
              end
          | None => None
          end
      | Some false =>
          match local_replacements fs base_dir matches' with
          | Some (rs, log) =>
              Some (rs,
                    {| level := WARNING;
                       message :=
                         ([22270; 29255; 25991; 20214; 19981; 23384; 22312;
                           65292; 36339; 36807]%N ++ u ": ") ++ img_path |}
                      :: log)
          | None => None
          end
      | None => None
      end
  end.

(** [embed_local_images]: the new content and what was logged. *)
Definition embed_local_images (fs : FileSystem) (content base_dir : text)
  : option (text * list LogRecord) :=
  let matches := finditer local_image content in
  match matches with
  | [] => Some (content, [])
  | _ :: _ =>
      match local_replacements fs base_dir matches with
      | Some (replacements, log) =>
          Some (apply_replacements content replacements, log)
      | None => None
      end
  end.

(** ** CSS inlining module *)

(** [get_style_mapping()]: the dict, in its insertion order. *)
Definition get_style_mapping : list (string * text) :=
  [ ("body", u "font-family: -apple-system, BlinkMacSystemFont, 'PingFang SC', 'Hiragino Sans GB', 'Microsoft YaHei', sans-serif; line-height: 1.75; color: #333333; background: #FAF9F5; margin: 0; padding: 0;");
    ("h1", u "font-size: 1.6rem; font-weight: 700; color: #222; margin-bottom: 24px; line-height: 1.4;");
    ("h2", u "display: inline-block; background: #E9C4B1; color: #222; font-size: 1.15rem; padding: 4px 16px; border-radius: 20px; margin: 40px 0 20px; font-weight: 600; box-shadow: 2px 2px 0px rgba(0, 0, 0, 0.05);");
    ("h3", u "font-size: 1.05rem; font-weight: 600; color: #333333; margin: 28px 0 12px; border-left: 4px solid #FF9E66; padding-left: 10px; line-height: 1.2;");
    ("p", u "margin-bottom: 20px; text-align: justify; letter-spacing: 0.03em; font-size: 1rem;");
    ("strong", u "color: #D35400; background: linear-gradient(180deg, transparent 65%, rgba(255, 158, 102, 0.2) 65%); padding: 0 2px;");
    ("blockquote", u "background: #FFF9E6; border-left: 4px solid #FF9E66; border-radius: 12px; padding: 16px 20px; margin: 24px 0; color: #5F5F5F; font-size: 0.95rem;");
    ("ul", u "padding-left: 20px; margin-bottom: 24px; color: #5F5F5F;");
    ("ol", u "padding-left: 20px; margin-bottom: 24px; color: #5F5F5F;");
    ("li", u "margin-bottom: 8px;");
    ("pre", u "background: #282C34; border-radius: 12px; padding: 40px 20px 20px; position: relative; overflow-x: auto; margin: 24px 0; color: #ABB2BF; font-size: 0.85rem; line-height: 1.6;");
    ("code", u "font-family: 'Fira Code', Consolas, monospace;");
    ("img", u "display: block; max-width: 100%; border-radius: 12px; margin: 24px auto; box-shadow: 0 4px 12px rgba(0, 0, 0, 0.08);");
    ("hr", u "border: 0; height: 1px; background: #E0E0E0; margin: 40px 60px;");
    ("article_container", u "max-width: 680px; margin: 0 auto; background: #FAF9F5; min-height: 100vh;");
    ("article_content", u "padding: 24px 20px 60px; background: #FAF9F5;") ].

(** [styles[tag]]. *)
Definition style_of (tag : string) : text := get get_style_mapping tag [].

Definition inline_code_style : text :=
  u "background: #F0EEE6; color: #C04848; padding: 2px 6px; border-radius: 4px; font-size: 0.9em;".

Definition first_p_style : text :=
  u "background: #FFF; border: 1px solid #EAEAEA; padding: 24px; border-radius: 12px; font-size: 1.05rem; color: #444; box-shadow: 0 8px 16px rgba(0, 0, 0, 0.04); position: relative; overflow: hidden;"
    ++ u " border-top: 4px solid #FF9E66;".

(** [tag in ["body", "article_container", "article_content"]]. *)
Definition page_level (tag : string) : bool :=
  String.eqb tag "body" || String.eqb tag "article_container"
  || String.eqb tag "article_content".

(** The body of the inner loop of [apply_inline_styles], for one element
    that [find_all(tag)] returned: [parent] is [element.parent.name]. *)
Definition restyle_element (tag : string) (new_style : text) (parent : string)
    (attrs : list (string * text)) : list (string * text) :=
  let current_style := get attrs "style" [] in
  if String.eqb tag "code" then
    if String.eqb parent "pre" then attrs
    else set_attr attrs "style" (inline_code_style ++ current_style)
  else set_attr attrs "style" (new_style ++ u " " ++ current_style).

(** [element.attrs] replaced. *)
Definition set_attrs (attrs : list (string * text)) (n : node) : node :=
  match n with
  | Tag name _ contents => Tag name attrs contents
  | _ => n
  end.

(** One turn of the inner loop: the element that [find_all] found at the
    path [p] below the node named [root] gets its new attributes. *)
Definition restyle_found (tag : string) (new_style : text) (root : string)
    (l : list node) (p : path) : list node :=
  match lookup root l p with
  | Some (parent, Tag _ attrs _) =>
      update_at p (set_attrs (restyle_element tag new_style parent attrs)) l
  | _ => l
  end.

(** Step 1 of [apply_inline_styles]: the loop over the tags of the mapping
    and, for each tag, over the elements [soup.find_all(tag)] returns.  The
    loop changes attributes only, so the paths stay valid while it runs. *)
Definition apply_tag_styles (s : soup) : soup :=
  fold_left
    (fun s '(tag, new_style) =>
       if page_level tag then s
       else fold_left (restyle_found tag new_style document) (find_all tag s) s)
    get_style_mapping s.

Definition prepend_style (style : text) (n : node) : node :=
  match n with
  | Tag name attrs contents =>
      Tag name
        (set_attr attrs "style" (style ++ u " " ++ get attrs "style" []))
        contents
  | _ => n
  end.

(** Step 2: the first [p] of the document gets the lead paragraph style. *)
Definition style_first_p (s : soup) : soup :=
  match find "p" s with
  | Some first_p => update_at first_p (prepend_style first_p_style) s
  | None => s
  end.

Definition apply_inline_styles (s : soup) : soup :=
  style_first_p (apply_tag_styles s).

(** ** CSS and HTML module *)

(** [markdown_to_html]: the library's converter with the four extensions. *)
Definition markdown_to_html (content : text) : text :=
  markdown content.

(** The three literals of [build_full_html]. *)
Definition copy_btn_css : text :=
  List.concat
    [ LF;
      u "/* " ++ [19968; 38190; 22797; 21046; 25353; 38062; 26679; 24335]%N
        ++ u " */" ++ LF;
      u ".copy-btn {" ++ LF;
      u "  position: fixed;" ++ LF;
      u "  top: 20px;" ++ LF;
      u "  right: 20px;" ++ LF;
      u "  padding: 12px 24px;" ++ LF;
      u "  background: linear-gradient(135deg, #FF9E66, #E9C4B1);" ++ LF;
      u "  color: #fff;" ++ LF;
      u "  border: none;" ++ LF;
      u "  border-radius: 25px;" ++ LF;
      u "  font-size: 14px;" ++ LF;
      u "  font-weight: 600;" ++ LF;
      u "  cursor: pointer;" ++ LF;
      u "  box-shadow: 0 4px 15px rgba(255, 158, 102, 0.4);" ++ LF;
      u "  transition: all 0.3s ease;" ++ LF;
      u "  z-index: 9999;" ++ LF;
      u "  display: flex;" ++ LF;
      u "  align-items: center;" ++ LF;
      u "  gap: 8px;" ++ LF;
      u "}" ++ LF;
      LF;
      u ".copy-btn:hover {" ++ LF;
      u "  transform: translateY(-2px);" ++ LF;
      u "  box-shadow: 0 6px 20px rgba(255, 158, 102, 0.5);" ++ LF;
      u "}" ++ LF;
      LF;
      u ".copy-btn:active {" ++ LF;
      u "  transform: translateY(0);" ++ LF;
      u "}" ++ LF;
      LF;
      u ".copy-btn.success {" ++ LF;
      u "  background: linear-gradient(135deg, #27C93F, #52D668);" ++ LF;
      u "}" ++ LF;
      LF;
      u ".copy-btn svg {" ++ LF;
      u "  width: 18px;" ++ LF;
      u "  height: 18px;" ++ LF;
      u "  fill: currentColor;" ++ LF;
      u "}" ++ LF;
      LF;
      u ".copy-toast {" ++ LF;
      u "  position: fixed;" ++ LF;
      u "  top: 80px;" ++ LF;
      u "  right: 20px;" ++ LF;
      u "  padding: 12px 20px;" ++ LF;
      u "  background: rgba(0, 0, 0, 0.8);" ++ LF;
      u "  color: #fff;" ++ LF;
      u "  border-radius: 8px;" ++ LF;
      u "  font-size: 14px;" ++ LF;
      u "  opacity: 0;" ++ LF;
      u "  transform: translateY(-10px);" ++ LF;
      u "  transition: all 0.3s ease;" ++ LF;
      u "  z-index: 9999;" ++ LF;
      u "}" ++ LF;
      LF;
      u ".copy-toast.show {" ++ LF;
      u "  opacity: 1;" ++ LF;
      u "  transform: translateY(0);" ++ LF;
      u "}" ++ LF;
      LF;
      u "@media print {" ++ LF;
      u "  .copy-btn, .copy-toast { display: none !important; }" ++ LF;
      u "}" ++ LF ].

Definition copy_script : text :=
  List.concat
    [ LF;
      u "<script>" ++ LF;
      u "function copyArticleContent() {" ++ LF;
      u "  // Select the container so that we capture the inner div with its background style"
        ++ LF;
      u "  const articleContent = document.querySelector('.article-container');"
        ++ LF;
      u "  const btn = document.querySelector('.copy-btn');" ++ LF;
      u "  const toast = document.getElementById('copyToast');" ++ LF;
      LF;
      u "  const range = document.createRange();" ++ LF;
      u "  range.selectNodeContents(articleContent);" ++ LF;
      LF;
      u "  const selection = window.getSelection();" ++ LF;
      u "  selection.removeAllRanges();" ++ LF;
      u "  selection.addRange(range);" ++ LF;
      LF;
      u "  try {" ++ LF;
      u "    const success = document.execCommand('copy');" ++ LF;
      u "    if (success) {" ++ LF;
      u "      btn.classList.add('success');" ++ LF;
      u "      btn.querySelector('span').textContent = '"
        ++ [22797; 21046; 25104; 21151; 65281]%N ++ u "';" ++ LF;
      u "      toast.classList.add('show');" ++ LF;
      LF;
      u "      setTimeout(() => {" ++ LF;
      u "        btn.classList.remove('success');" ++ LF;
      u "        btn.querySelector('span').textContent = '"
        ++ [19968; 38190; 22797; 21046]%N ++ u "';" ++ LF;
      u "        toast.classList.remove('show');" ++ LF;
      u "      }, 2000);" ++ LF;
      u "    } else {" ++ LF;
      u "      throw new Error('" ++ [22797; 21046; 22833; 36133]%N ++ u "');"
        ++ LF;
      u "    }" ++ LF;
      u "  } catch (err) {" ++ LF;
      u "    toast.textContent = '"
        ++ [22797; 21046; 22833; 36133; 65292; 35831; 25163; 21160; 36873; 25321; 22797; 21046]%N
        ++ u "';" ++ LF;
      u "    toast.classList.add('show');" ++ LF;
      u "    setTimeout(() => {" ++ LF;
      u "      toast.classList.remove('show');" ++ LF;
      u "      toast.textContent = '"
        ++ [22797; 21046; 25104; 21151; 65281; 21487; 30452; 25509; 31896; 36148; 21040; 24494; 20449; 20844; 20247; 21495]%N
        ++ u "';" ++ LF;
      u "    }, 2000);" ++ LF;
      u "  }" ++ LF;
      LF;
      u "  selection.removeAllRanges();" ++ LF;
      u "}" ++ LF;
      u "</script>" ++ LF ].

Definition copy_btn_html : text :=
  List.concat
    [ LF;
      u "<!-- " ++ [19968; 38190; 22797; 21046; 25353; 38062]%N ++ u " -->"
        ++ LF;
      u "<button class=" ++ quot ++ u "copy-btn" ++ quot ++ u " onclick="
        ++ quot ++ u "copyArticleContent()" ++ quot ++ u ">" ++ LF;
      u "  <svg viewBox=" ++ quot ++ u "0 0 24 24" ++ quot ++ u " xmlns="
        ++ quot ++ u "http://www.w3.org/2000/svg" ++ quot ++ u ">" ++ LF;
      u "    <path d=" ++ quot
        ++ u "M16 1H4c-1.1 0-2 .9-2 2v14h2V3h12V1zm3 4H8c-1.1 0-2 .9-2 2v14c0 1.1.9 2 2 2h11c1.1 0 2-.9 2-2V7c0-1.1-.9-2-2-2zm0 16H8V7h11v14z"
        ++ quot ++ u "/>" ++ LF;
      u "  </svg>" ++ LF;
      u "  <span>" ++ [19968; 38190; 22797; 21046]%N ++ u "</span>" ++ LF;
      u "</button>" ++ LF;
      u "<div class=" ++ quot ++ u "copy-toast" ++ quot ++ u " id=" ++ quot
        ++ u "copyToast" ++ quot ++ u ">"
        ++ [22797; 21046; 25104; 21151; 65281; 21487; 30452; 25509; 31896; 36148; 21040; 24494; 20449; 20844; 20247; 21495]%N
        ++ u "</div>" ++ LF ].

(** [build_full_html]: the template with its six fields filled in. *)
Definition build_full_html (body title : text) : text :=
  let css := load_css in
  List.concat
    [ u "<!DOCTYPE html>" ++ LF;
      u "<html lang=" ++ quot ++ u "zh-CN" ++ quot ++ u ">" ++ LF;
      u "<head>" ++ LF;
      u "    <meta charset=" ++ quot ++ u "UTF-8" ++ quot ++ u ">" ++ LF;
      u "    <meta name=" ++ quot ++ u "viewport" ++ quot ++ u " content="
        ++ quot ++ u "width=device-width, initial-scale=1.0" ++ quot ++ u ">"
        ++ LF;
      u "    <meta name=" ++ quot ++ u "generator" ++ quot ++ u " content="
        ++ quot ++ u "WeChat Article Gen (TechFastFood)" ++ quot ++ u ">" ++ LF;
      u "    <title>" ++ title ++ u "</title>" ++ LF;
      u "    <style>" ++ LF;
      css ++ LF;
      copy_btn_css ++ LF;
      u "    </style>" ++ LF;
      u "</head>" ++ LF;
      u "<body>" ++ LF;
      copy_btn_html ++ LF;
      copy_script ++ LF;
      u "    <!-- WeChat Outer Wrapper to Enforce Background -->" ++ LF;
      u "    <section id=" ++ quot ++ u "wechat-wrapper" ++ quot
        ++ u " style=" ++ quot
        ++ u "background-color: #FAF9F5; min-height: 100vh; font-family: -apple-system, BlinkMacSystemFont, 'PingFang SC', 'Hiragino Sans GB', 'Microsoft YaHei', sans-serif; color: #333333; line-height: 1.75;"
        ++ quot ++ u ">" ++ LF;
      u "        <div class=" ++ quot ++ u "article-container" ++ quot
        ++ u " style=" ++ quot
        ++ u "max-width: 680px; margin: 0 auto; background: #FAF9F5;" ++ quot
        ++ u ">" ++ LF;
      u "            <div class=" ++ quot ++ u "article-content" ++ quot
        ++ u " style=" ++ quot
        ++ u "padding: 24px 20px 60px; background: #FAF9F5;" ++ quot ++ u ">"
        ++ LF;
      body ++ LF;
      u "            </div>" ++ LF;
      u "        </div>" ++ LF;
      u "    </section>" ++ LF;
      u "</body>" ++ LF;
      u "</html>" ].

(** ** Calibration module *)

(** The strings [get_text(strip=True)] joins: the text nodes below, each
    stripped, the empty ones dropped. *)
Fixpoint stripped_strings (n : node) : list text :=
  match n with
  | Tag _ _ contents => flat_map stripped_strings contents
  | NavigableString s =>
      match strip s with
      | [] => []
      | t => [t]
      end
  | Special _ => []
  end.

(** [element.get_text(strip=True)] for an element with contents [l]. *)
Definition get_text (l : list node) : text :=
  List.concat (flat_map stripped_strings l).

(** [not p.get_text(strip=True) and not p.find("img")]. *)
Definition vacuous (contents : list node) : bool :=
  match get_text contents, find "img" contents with
  | [], None => true
  | _, _ => false
  end.

(** The loop [for p in soup.find_all("p"): if ...: p.decompose()], for the
    subtree of one node.  The elements are visited in document order, so a
    paragraph is tested before anything below it is removed, and a paragraph
    inside a decomposed one is gone with it (on a decomposed element both
    tests find nothing and the second [decompose] changes nothing). *)
Fixpoint remove_empty_p (n : node) : list node :=
  match n with
  | Tag name attrs contents =>
      if String.eqb name "p" && vacuous contents then []
      else [Tag name attrs (flat_map remove_empty_p contents)]
  | _ => [n]
  end.

(** The loop of [calibrate_code] over the whole soup. *)
Definition remove_empty_paragraphs (s : soup) : soup :=
  flat_map remove_empty_p s.

(** [calibrate_code] between parsing and printing: on the parsed tree. *)
Definition calibrate_soup (s : soup) : soup :=
  remove_empty_paragraphs (apply_inline_styles s).


(** ** Main pipeline *)

(** The title [main] takes from the content. *)
Definition default_title : text :=
  [31185; 25216; 36895; 39135; 31185; 26222]%N.

Definition title_of (content : text) : text :=
  match search_title true content with
  | Some title => title
  | None => default_title
  end.

End Pipeline.

(** * Specification *)

(** ** The styled tree *)

(** The tree after the inner loop for one [tag], by recursion over the
    tree: every element of that name, at any depth, is restyled. *)
Fixpoint restyle (tag : string) (new_style : text) (parent : string) (n : node)
  : node :=
  match n with
  | Tag name attrs contents =>
      Tag name
        (if String.eqb name tag then restyle_element tag new_style parent attrs
         else attrs)
        (map (restyle tag new_style name) contents)
  | _ => n
  end.

(** The tree after the loop over the tags, by recursion over the tree. *)
Definition restyle_tags (parent : string) (s : list node) : list node :=
  fold_left
    (fun s '(tag, new_style) =>
       if page_level tag then s else map (restyle tag new_style parent) s)
    get_style_mapping s.

(** The name and the attributes of the element at a path, with the name of
    its parent; [None] when the path leads to no element. *)
Definition element_at (parent : string) (l : list node) (p : path)
  : option (string * string * list (string * text)) :=
  match lookup parent l p with
  | Some (up, Tag name attrs _) => Some (up, name, attrs)
  | _ => None
  end.

(** The attributes of an element named [name] after the whole tag loop. *)
Definition restyled_attrs (name up : string) (attrs : list (string * text))
  : list (string * text) :=
  fold_left
    (fun attrs '(tag, new_style) =>
       if page_level tag then attrs
       else if String.eqb name tag
            then restyle_element tag new_style up attrs
            else attrs)
    get_style_mapping attrs.

(** Paths are compared as the elements they lead to are in Python, by
    identity. *)
Definition path_eq_dec : forall p q : path, {p = q} + {p <> q} :=
  list_eq_dec Nat.eq_dec.
#[global] Arguments path_eq_dec : simpl never.

(** The attributes [apply_inline_styles] leaves on an element, from those it
    found there; [lead] says whether the element is the first [p]. *)
Definition inlined_attrs (lead : bool) (name up : string)
    (attrs : list (string * text)) : list (string * text) :=
  let attrs1 := restyled_attrs name up attrs in
  if lead
  then set_attr attrs1 "style"
         (first_p_style ++ u " " ++ get attrs1 "style" [])
  else attrs1.

(** Whether [p] leads to the element that [soup.find("p")] returns. *)
Definition is_first_p (s : soup) (p : path) : bool :=
  match find "p" s with
  | Some first => if path_eq_dec p first then true else false
  | None => false
  end.

(** The tags of the mapping that the tag loop styles with their mapped
    style: all but the page-level ones, which it skips, and [code], which
    has a branch of its own. *)
Definition mapped_tags : list string :=
  ["h1"; "h2"; "h3"; "p"; "strong"; "blockquote"; "ul"; "ol"; "li"; "pre";
   "img"; "hr"].

(** Two texts that differ at a position both reach. *)
Fixpoint conflict (p q : text) : bool :=
  match p, q with
  | a :: p', b :: q' => negb (N.eqb a b) || conflict p' q'
  | _, _ => false
  end.

(** Whether the text [p] occurs in the text [s]. *)
Fixpoint occurs (p s : text) : bool :=
  starts_with p s
  || match s with
     | [] => false
     | _ :: s' => occurs p s'
     end.

(** The style [apply_inline_styles] puts before the style an element has:
    the inline code style for a [code] outside a [pre], nothing for a [code]
    in a [pre]; the mapped style and a space for the other tags it styles,
    after the lead style and a space when the element is the first [p];
    nothing for any other element. *)
Definition applied_style (lead : bool) (name up : string) : text :=
  if String.eqb name "code" then
    if String.eqb up "pre" then [] else inline_code_style
  else if existsb (String.eqb name) mapped_tags then
    (if lead then first_p_style ++ u " " else []) ++ style_of name ++ u " "
  else [].

(** The attributes with [added] put before the style; with nothing to add
    they are as they were, with no [style] attribute when they had none. *)
Definition with_style_before (added : text) (attrs : list (string * text))
  : list (string * text) :=
  match added with
  | [] => attrs
  | _ :: _ => set_attr attrs "style" (added ++ get attrs "style" [])
  end.

(** The documents of the examples: [<pre><code style="color: red">x</code></pre>],
    a heading and two paragraphs with styles of their own, and a paragraph
    with inline code followed by a code block. *)
Definition pre_with_styled_code : soup :=
  [ Tag "pre" []
      [ Tag "code" [("style", u "color: red")] [NavigableString (u "x")] ] ].

Definition styled_heading_and_paragraphs : soup :=
  [ Tag "h1" [("style", u "color: red")] [NavigableString (u "Title")];
    Tag "p" [("class", u "lead"); ("style", u "margin: 0")]
      [NavigableString (u "First")];
    Tag "p" [("style", u "margin: 0")] [NavigableString (u "Second")] ].

Definition inline_and_block_code : soup :=
  [ Tag "p" [] [NavigableString (u "Run "); Tag "code" [] [NavigableString (u "ls")]];
    Tag "pre" [] [Tag "code" [] [NavigableString (u "ls -l")]] ].

(** ** The tree without its styles *)

(** Attributes without [style]. *)
Definition without_style (attrs : list (string * text))
  : list (string * text) :=
  filter (fun '(k, _) => negb (String.eqb k "style")) attrs.

(** A node without the [style] attributes of its elements. *)
Fixpoint erase_style (n : node) : node :=
  match n with
  | Tag name attrs contents =>
      Tag name (without_style attrs) (map erase_style contents)
  | _ => n
  end.






(** Whether the subtree of [n] holds a paragraph without text and without
    image, [n] included. *)
Fixpoint empty_p (n : node) : bool :=
  match n with
  | Tag name _ contents =>
      (String.eqb name "p" && vacuous contents) || existsb empty_p contents
  | _ => false
  end.

(** ** The image generation request *)

(** A client for the examples: every answer has the text [a cat, flat] and
    one image, whose bytes are the contents of the request. *)
Definition echo_client : Client :=
  {| generate_content :=
       fun _ request =>
         Some {| response_text := Some (u "a cat, flat");
                 candidates :=
                   [Some [{| inline_data :=
                               Some {| blob_data :=
                                         Some (req_contents request) |} |}]]
              |} |}.

(** The default configuration with a resolution setting and that client. *)
Definition config_with_resolution (resolution : text) : Config :=
  {| IMG_MODEL_NAME := u "gemini-3-pro-image-preview";
     TEXT_MODEL_NAME := u "gemini-3-pro-preview";
     IMAGE_RESOLUTION := resolution;
     ENABLE_SEARCH := false;
     client := Some echo_client |}.

(** The default configuration when [GOOGLE_API_KEY] is not set. *)
Definition config_without_client : Config :=
  {| IMG_MODEL_NAME := u "gemini-3-pro-image-preview";
     TEXT_MODEL_NAME := u "gemini-3-pro-preview";
     IMAGE_RESOLUTION := u "2k";
     ENABLE_SEARCH := false;
     client := None |}.

(** ** The title *)

(** The lines of a text: what stands between its line feeds. *)
Definition lines (s : text) : list text :=
  fold_right
    (fun c acc =>
       if (c =? 10)%N then [] :: acc
       else match acc with
            | l :: acc' => (c :: l) :: acc'
            | [] => [[c]]
            end)
    [[]] s.

(** Following the words of the specification: a line is a top-level heading
    of the form [# Title] when it is a hash sign, white space and a title
    that is not empty; the title is the heading text. *)
Definition heading_text (line : text) : option text :=
  match line with
  | 35%N :: w :: rest =>
      if is_space w then
        match lstrip rest with
        | [] => None
        | title => Some title
        end
      else None
  | _ => None
  end.

(** The documents of the examples: a lone hash sign and then a line of
    text; a lone hash sign and then two headings. *)
Definition bare_hash_then_text : text := u "#" ++ LF ++ u "foo".

Definition bare_hash_then_headings : text :=
  u "#" ++ LF ++ u "# A" ++ LF ++ u "# B".

(** The text after the first occurrence of [pat] in [s], and the text
    before it. *)
Fixpoint after_first (pat s : text) : option text :=
  if starts_with pat s then Some (skipn (List.length pat) s)
  else match s with
       | [] => None
       | _ :: s' => after_first pat s'
       end.

Fixpoint before_first (pat s : text) : option text :=
  if starts_with pat s then Some []
  else match s with
       | [] => None
       | c :: s' => option_map (cons c) (before_first pat s')
       end.

(** The title field of an HTML document: the text of its [title]
    element. *)
Definition title_field (html : text) : option text :=
  match after_first (u "<title>") html with
  | Some rest => before_first (u "</title>") rest
  | None => None
  end.

(** A line, without its line feed, that does not start with a hash sign. *)
Definition unheaded (line : text) : bool :=
  negb (starts_with (u "#") line)
  && forallb (fun c => negb (c =? 10)%N) line.

(** The text made of the lines [ls], each with its line feed. *)
Definition unlines (ls : list text) : text :=
  List.concat (map (fun l => l ++ LF) ls).

(** ** Replacing spans from left to right *)

(** The text [s], which starts at position [pos] of the content, with the
    replacements made in reading order: what precedes the first span, its
    replacement, and so on with what follows the span. *)
Fixpoint splice (pos : nat) (s : text) (rs : list replacement) : text :=
  match rs with
  | [] => s
  | (a, b, r) :: rs' =>
      firstn (a - pos) s ++ r ++ splice b (skipn (b - pos) s) rs'
  end.

(** Spans in increasing order, without overlap, between [pos] and [len]. *)
Fixpoint ordered (pos len : nat) (rs : list replacement) : Prop :=
  match rs with
  | [] => True
  | (a, b, _) :: rs' => pos <= a /\ a <= b /\ b <= len /\ ordered b len rs'
  end.

Fixpoint spans_ordered (pos len : nat) (ms : list Match) : Prop :=
  match ms with
  | [] => True
  | m :: ms' =>
      pos <= span_start m /\ span_start m <= span_end m
      /\ span_end m <= len /\ spans_ordered (span_end m) len ms'
  end.

(** The replacements chosen for a list of matches: [Some r] replaces the
    span of the match by [r], [None] leaves it as it is. *)
Fixpoint chosen (ms : list Match) (ds : list (option text))
  : list replacement :=
  match ms, ds with
  | m :: ms', Some r :: ds' =>
      (span_start m, span_end m, r) :: chosen ms' ds'
  | _ :: ms', None :: ds' => chosen ms' ds'
  | _, _ => []
  end.

(** [out] is [s] read from left to right, where every match of the pattern
    is either kept or replaced by a text, as [R] allows for its groups, and
    every code point outside a match is copied. *)
Inductive Rewrites (m : matcher) (R : list text -> option text -> Prop)
  : text -> text -> Prop :=
| rewrites_end : Rewrites m R [] []
| rewrites_copy c s out :
    m (c :: s) = None ->
    Rewrites m R s out ->
    Rewrites m R (c :: s) (c :: out)
| rewrites_keep s gs n out :
    m s = Some (gs, n) ->
    R gs None ->
    Rewrites m R (skipn n s) out ->
    Rewrites m R s (firstn n s ++ out)
| rewrites_replace s gs n r out :
    m s = Some (gs, n) ->
    R gs (Some r) ->
    Rewrites m R (skipn n s) out ->
    Rewrites m R s (r ++ out).

(** A pattern that matches at least one code point, and no more than the
    text has. *)
Definition matcher_ok (m : matcher) : Prop :=
  forall s gs n, m s = Some (gs, n) -> 1 <= n <= List.length s.

(** ** The patterns in a text that was put together *)

(** A code point the description of a placeholder may hold. *)
Definition plain (c : N) : bool := negb (c =? 41)%N && negb (c =? 10)%N.

Definition marker_literal : text := u "![Image](".

(** [re.search(pattern, s) is not None]. *)
Fixpoint has_match (m : matcher) (s : text) : bool :=
  match s with
  | [] => false
  | _ :: s' =>
      match m s with
      | Some _ => true
      | None => has_match m s'
      end
  end.

(** How far a literal gets on a text [p] alone. *)
Inductive residue : Type :=
| Matched (rest : text)
| Mismatch
| Pending (literal' : text).

Fixpoint literal_residue (literal p : text) : residue :=
  match literal, p with
  | [], _ => Matched p
  | _ :: _, [] => Pending literal
  | q :: literal', c :: p' =>
      if ignorecase_eq q c then literal_residue literal' p' else Mismatch
  end.

(** A literal none of whose characters matches a parenthesis or a line
    feed consumes plain code points only. *)
Definition plain_literal (literal : text) : Prop :=
  Forall (fun q => forall c, ignorecase_eq q c = true -> plain c = true)
    literal.

(** A pattern for which a failed match stays failed when a match further
    on is replaced by a text that starts with an exclamation mark. *)
Definition stable (m : matcher) : Prop :=
  forall p s gs n t,
    p <> [] -> m s = Some (gs, n) -> m (p ++ s) = None ->
    m (p ++ 33%N :: t) = None.


(** ** Placeholder scanning and image acquisition *)

(** [f"![{desc}](https://placehold.co/...?text={desc})"]. *)
Definition placeholder_reference (desc : text) : text :=
  image_reference desc (placeholder_url ++ desc).


(** The reference to the placeholder image for a description, written out. *)
Definition placehold_co_reference (description : text) : text :=
  u "![" ++ description
    ++ u "](https://placehold.co/800x400/FFF9E6/FF9E66.png?text="
    ++ description ++ u ")".

(** With no client every placeholder gets the placeholder image. *)
Definition placeholder_only (gs : list text) (d : option text) : Prop :=
  d = Some (placeholder_reference (nth 0 gs [])).

Definition no_files : FileSystem :=
  {| path_exists := fun _ => Some false; file_bytes := fun _ => None;
     writable := fun _ => true |}.

(** ** The Local Image Embedder *)

Section EmbedderOutcome.

Variable joinpath : text -> text -> text.
Variable guess_type : text -> option text.
Variable fs : FileSystem.
Variable base_dir : text.





(** For every file that a match names, [exists] answers, and the file can be
    read when it exists. *)
Definition readable (ms : list Match) : Prop :=
  Forall
    (fun m =>
       exists answer,
         path_exists fs (joinpath base_dir (group 2 m)) = Some answer
         /\ (answer = true ->
             exists d, file_bytes fs (joinpath base_dir (group 2 m)) = Some d))
    ms.

End EmbedderOutcome.

Definition slash (base name : text) : text := base ++ u "/" ++ name.

Definition one_image_file : FileSystem :=
  {| path_exists := fun q => Some (text_eqb q (u "post/a.png"));
     file_bytes :=
       fun q => if text_eqb q (u "post/a.png") then Some (u "Man") else None;
     writable := fun _ => true |}.


(** ** Reading a data URI back *)

(** The place of a code point in the Base64 alphabet. *)
Definition b64_index (c : N) : option N :=
  if ((65 <=? c) && (c <=? 90))%N then Some (c - 65)%N
  else if ((97 <=? c) && (c <=? 122))%N then Some (c - 71)%N
  else if ((48 <=? c) && (c <=? 57))%N then Some (c + 4)%N
  else if (c =? 43)%N then Some 62%N
  else if (c =? 47)%N then Some 63%N
  else None.

(** Decoding as RFC 4648 describes it, strict: quadruples of the alphabet,
    padding in the last one only; [None] for any other text. *)
Fixpoint b64decode (s : text) : option bytes :=
  match s with
  | [] => Some []
  | c1 :: c2 :: c3 :: c4 :: s' =>
      match b64_index c1, b64_index c2 with
      | Some i1, Some i2 =>
          let b1 := (i1 * 4 + i2 / 16)%N in
          if (c3 =? 61)%N then
            match (c4 =? 61)%N, s' with
            | true, [] => Some [b1]
            | _, _ => None
            end
          else
            match b64_index c3 with
            | Some i3 =>
                let b2 := ((i2 mod 16) * 16 + i3 / 4)%N in
                if (c4 =? 61)%N then
                  match s' with
                  | [] => Some [b1; b2]
                  | _ :: _ => None
                  end
                else
                  match b64_index c4, b64decode s' with
                  | Some i4, Some d =>
                      Some (b1 :: b2 :: ((i3 mod 4) * 64 + i4)%N :: d)
                  | _, _ => None
                  end
            | None => None
            end
      | _, _ => None
      end
  | _ => None
  end.

(** Arithmetic with quotients and remainders. *)
Ltac euclid := zify; Z.to_euclidean_division_equations; lia.

(** ** The images of a run *)

(** The bytes [generate_image_from_prompt] takes from the answer to the
    [k]-th call: those of the first part of the first candidate that has
    inline data. *)
Definition generated_image (cfg : Config) (k : nat) (prompt : text)
  : option bytes :=
  match client cfg with
  | None => None
  | Some c =>
      match generate_content c k (image_request cfg prompt) with
      | Some response =>
          match candidates response with
          | Some (part :: parts) :: _ =>
              match first_inline_data (part :: parts) with
              | Some {| blob_data := Some d |} => Some d
              | _ => None
              end
          | _ => None
          end
      | None => None
      end
  end.

(** [f"data:{mime_type};base64,{b64_data}"] for the file at [image_path]
    when it holds the bytes [d]. *)
Definition data_uri (guess_type : text -> option text) (image_path : text)
    (d : bytes) : text :=
  u "data:"
    ++ match guess_type image_path with
       | Some (c :: t) => c :: t
       | _ => u "image/png"
       end
    ++ u ";base64," ++ b64encode d.

(** [assets_dir / f"gen_{timestamp}.png"]. *)
Definition gen_path (joinpath : text -> text -> text) (assets_dir : text)
    (timestamp : N) : text :=
  joinpath assets_dir (u "gen_" ++ str_of_N timestamp ++ u ".png").

Section OwnImages.

Variable cfg : Config.
Variable time_ms : nat -> N.
Variable joinpath : text -> text -> text.
Variable guess_type : text -> option text.
Variable assets_dir : text.

(** The reference for the [i]-th placeholder, from the answers to its own
    two calls: the embedded image when an image came and could be written,
    the placeholder image otherwise. *)
Definition own_reference (fs : FileSystem) (i : nat) (m : Match) : text :=
  let desc := group 1 m in
  let img_path := gen_path joinpath assets_dir (time_ms i) in
  match generated_image cfg (2 * i + 1) (expand_prompt cfg (2 * i) desc) with
  | Some d =>
      if writable fs img_path
      then image_reference desc (data_uri guess_type img_path d)
      else placeholder_reference desc
  | None => placeholder_reference desc
  end.

(** The references for the placeholders [ms], the first of which is the
    [i]-th of the run. *)
Fixpoint own_references (fs : FileSystem) (i : nat) (ms : list Match)
  : list (option text) :=
  match ms with
  | [] => []
  | m :: ms' => Some (own_reference fs i m) :: own_references fs (S i) ms'
  end.

End OwnImages.


(** A file system with one directory, [post/img]. *)
Definition one_directory : FileSystem :=
  {| path_exists := fun q => Some (text_eqb q (u "post/img"));
     file_bytes := fun _ => None;
     writable := fun _ => true |}.

(** A client for the examples: the image it returns for the [k]-th call is
    the byte [k]; it returns no text. *)
Definition numbering_client : Client :=
  {| generate_content :=
       fun k _ =>
         Some {| response_text := None;
                 candidates :=
                   [Some [{| inline_data :=
                               Some {| blob_data := Some [N.of_nat k] |} |}]]
              |} |}.

(** * Proofs *)

(** ** Lemmas on the document tree *)

Lemma node_forall_ind (P : node -> Prop) :
  (forall name attrs contents,
      Forall P contents -> P (Tag name attrs contents)) ->
  (forall s, P (NavigableString s)) ->
  (forall s, P (Special s)) ->
  forall n, P n.
Proof.
  intros Htag Hstr Hsp.
  apply (node_rect' P (Forall P)); auto.
Qed.

Lemma update_nth_middle {A} (f : A -> A) (pre : list A) x post :
  update_nth (List.length pre) f (pre ++ x :: post) = pre ++ f x :: post.
Proof. induction pre as [|y pre IH]; simpl; [|rewrite IH]; reflexivity. Qed.

Lemma nth_error_middle {A} (pre : list A) x post :
  nth_error (pre ++ x :: post) (List.length pre) = Some x.
Proof. induction pre as [|y pre IH]; simpl; auto. Qed.

Lemma below_nonempty (f : node -> list path) l : forall i,
  Forall (fun q => q <> []) (below f i l).
Proof.
  induction l as [|k l IH]; intros i; simpl; [constructor|].
  apply Forall_app; split; [|apply IH].
  apply Forall_forall. intros q Hq. apply in_map_iff in Hq.
  destruct Hq as (q' & <- & _). discriminate.
Qed.

Lemma update_at_inside i j q f l :
  update_at (i :: j :: q) f l
  = update_nth i
      (fun n =>
         match n with
         | Tag name attrs contents =>
             Tag name attrs (update_at (j :: q) f contents)
         | _ => n
         end) l.
Proof. reflexivity. Qed.

Lemma lookup_inside root pre name attrs contents post j q :
  lookup root (pre ++ Tag name attrs contents :: post)
    (List.length pre :: j :: q)
  = lookup name contents (j :: q).
Proof.
  change (lookup root ?l (?i :: j :: q))
    with (match nth_error l i with
          | None => None
          | Some n =>
              match n with
              | Tag name _ contents => lookup name contents (j :: q)
              | _ => None
              end
          end).
  rewrite nth_error_middle. reflexivity.
Qed.

(** A turn of the loop for an element below the [i]-th child is a turn of
    the loop inside that child. *)
Lemma restyle_found_inside tag new_style root pre name attrs contents post
    j q :
  restyle_found tag new_style root (pre ++ Tag name attrs contents :: post)
    (List.length pre :: j :: q)
  = pre ++ Tag name attrs (restyle_found tag new_style name contents (j :: q))
      :: post.
Proof.
  unfold restyle_found. rewrite lookup_inside.
  destruct (lookup name contents (j :: q)) as [[up [nm a c| |]]|].
  - rewrite update_at_inside, update_nth_middle. reflexivity.
  - reflexivity.
  - reflexivity.
  - reflexivity.
Qed.

Lemma restyle_found_all_inside tag new_style root pre name post qs :
  Forall (fun q => q <> []) qs ->
  forall attrs contents,
    fold_left (restyle_found tag new_style root)
      (map (cons (List.length pre)) qs)
      (pre ++ Tag name attrs contents :: post)
    = pre ++ Tag name attrs
               (fold_left (restyle_found tag new_style name) qs contents)
        :: post.
Proof.
  induction 1 as [|q qs Hq _ IH]; intros attrs contents; [reflexivity|].
  destruct q as [|j q]; [contradiction|]. cbn [map fold_left].
  rewrite restyle_found_inside. apply IH.
Qed.

(** The inner loop visits every element named [tag] once and restyles it:
    for one node, and for a list of nodes. *)
Lemma restyle_found_node tag new_style n : forall root pre post,
  fold_left (restyle_found tag new_style root)
    (map (cons (List.length pre)) (find_all_from tag n))
    (pre ++ n :: post)
  = pre ++ restyle tag new_style root n :: post.
Proof.
  induction n as [name attrs contents IH| |] using node_forall_ind;
    intros root pre post; [|reflexivity|reflexivity].
  assert (Inside : forall attrs0,
    fold_left (restyle_found tag new_style root)
      (map (cons (List.length pre)) (below (find_all_from tag) 0 contents))
      (pre ++ Tag name attrs0 contents :: post)
    = pre ++ Tag name attrs0 (map (restyle tag new_style name) contents)
        :: post).
  { intros attrs0.
    rewrite restyle_found_all_inside by apply below_nonempty.
    do 3 f_equal.
    assert (G : forall done rest,
      Forall (fun k => forall root pre post,
                fold_left (restyle_found tag new_style root)
                  (map (cons (List.length pre)) (find_all_from tag k))
                  (pre ++ k :: post)
                = pre ++ restyle tag new_style root k :: post) rest ->
      fold_left (restyle_found tag new_style name)
        (below (find_all_from tag) (List.length done) rest) (done ++ rest)
      = done ++ map (restyle tag new_style name) rest).
    { intros done rest Hrest. revert done.
      induction Hrest as [|k rest Hk _ IHrest]; intros done;
        [reflexivity|].
      cbn [below map]. rewrite fold_left_app, Hk.
      change (done ++ restyle tag new_style name k :: rest)
        with (done ++ [restyle tag new_style name k] ++ rest).
      rewrite app_assoc.
      replace (S (List.length done))
        with (List.length (done ++ [restyle tag new_style name k]))
        by (rewrite length_app; simpl; lia).
      rewrite IHrest, <- app_assoc. reflexivity. }
    exact (G [] contents IH). }
  cbn [find_all_from restyle]. rewrite map_app, fold_left_app.
  destruct (String.eqb name tag) eqn:E; cbn [map fold_left].
  - unfold restyle_found at 2. cbn [lookup]. rewrite nth_error_middle.
    cbn [update_at]. rewrite update_nth_middle. cbn [set_attrs].
    apply Inside.
  - apply Inside.
Qed.

Lemma restyle_found_forest tag new_style root l :
  fold_left (restyle_found tag new_style root) (find_all tag l) l
  = map (restyle tag new_style root) l.
Proof.
  unfold find_all.
  assert (G : forall rest done,
    fold_left (restyle_found tag new_style root)
      (below (find_all_from tag) (List.length done) rest) (done ++ rest)
    = done ++ map (restyle tag new_style root) rest).
  { induction rest as [|k rest IH]; intros done; [reflexivity|].
    cbn [below map]. rewrite fold_left_app, restyle_found_node.
    change (done ++ restyle tag new_style root k :: rest)
      with (done ++ [restyle tag new_style root k] ++ rest).
    rewrite app_assoc.
    replace (S (List.length done))
      with (List.length (done ++ [restyle tag new_style root k]))
      by (rewrite length_app; simpl; lia).
    rewrite IH, <- app_assoc. reflexivity. }
  exact (G l []).
Qed.

(** The loops of step 1 restyle the tree as the recursion does. *)
Lemma apply_tag_styles_restyle_tags s :
  apply_tag_styles s = restyle_tags document s.
Proof.
  unfold apply_tag_styles, restyle_tags.
  generalize get_style_mapping as m.
  intros m; revert s; induction m as [|[tag st] m IH]; intros s;
    [reflexivity|].
  cbn [fold_left]. destruct (page_level tag); [apply IH|].
  rewrite restyle_found_forest. apply IH.
Qed.

Lemma nth_error_update_nth {A} (f : A -> A) (l : list A) (i j : nat) :
  nth_error (update_nth i f l) j
  = if Nat.eqb i j then option_map f (nth_error l j) else nth_error l j.
Proof.
  revert i j; induction l as [|x l IH]; intros [|i] [|j]; simpl;
    try reflexivity; try (destruct (Nat.eqb _ _); reflexivity).
  apply IH.
Qed.

Lemma get_attr_set_attr attrs key value :
  get_attr (set_attr attrs key value) key = Some value.
Proof.
  induction attrs as [|[k v] attrs IH]; simpl.
  - rewrite String.eqb_refl; reflexivity.
  - destruct (String.eqb k key) eqn:E; simpl; rewrite E; auto.
Qed.

Lemma get_set_attr attrs key value default :
  get (set_attr attrs key value) key default = value.
Proof. unfold get; rewrite get_attr_set_attr; reflexivity. Qed.

Lemma starts_with_app (p s : text) : starts_with p (p ++ s) = true.
Proof.
  induction p as [|x p IH]; simpl; auto.
  rewrite N.eqb_refl; exact IH.
Qed.

Lemma starts_with_firstn (p s : text) :
  starts_with p s = true -> firstn (List.length p) s = p.
Proof.
  revert s; induction p as [|x p IH]; intros [|y s]; simpl; auto;
    try discriminate.
  intros H; apply andb_prop in H; destruct H as [Hx Hp].
  apply N.eqb_eq in Hx; subst; f_equal; auto.
Qed.

Lemma element_at_cons parent l i p :
  element_at parent l (i :: p)
  = match nth_error l i with
    | Some (Tag name attrs contents) =>
        match p with
        | [] => Some (parent, name, attrs)
        | _ :: _ => element_at name contents p
        end
    | _ => None
    end.
Proof.
  unfold element_at; simpl.
  destruct (nth_error l i) as [[name attrs contents| |]|]; destruct p;
    reflexivity.
Qed.

(** What one pass of the tag loop does to the element at a path. *)
Lemma element_at_restyle tag new_style p : forall parent l,
  element_at parent (map (restyle tag new_style parent) l) p
  = option_map
      (fun '(up, name, attrs) =>
         (up, name,
          if String.eqb name tag then restyle_element tag new_style up attrs
          else attrs))
      (element_at parent l p).
Proof.
  induction p as [|i p IH]; intros parent l; [reflexivity|].
  rewrite !element_at_cons, nth_error_map.
  destruct (nth_error l i) as [[name attrs contents| |]|]; simpl;
    try reflexivity.
  destruct p; [reflexivity|]. apply IH.
Qed.

Lemma element_at_restyle_tags parent l p :
  element_at parent (restyle_tags parent l) p
  = option_map
      (fun '(up, name, attrs) => (up, name, restyled_attrs name up attrs))
      (element_at parent l p).
Proof.
  unfold restyle_tags, restyled_attrs.
  generalize get_style_mapping as m.
  intros m; revert l; induction m as [|[tag st] m IH]; intros l; simpl.
  - destruct (element_at parent l p) as [[[? ?] ?]|]; reflexivity.
  - rewrite IH. destruct (page_level tag).
    + reflexivity.
    + rewrite element_at_restyle.
      destruct (element_at parent l p) as [[[? ?] ?]|]; reflexivity.
Qed.

Lemma below_ext (f g : node -> list path) l :
  Forall (fun k => f k = g k) l -> forall i, below f i l = below g i l.
Proof.
  induction 1 as [|k l Hk _ IH]; intros i; simpl; [reflexivity|].
  rewrite Hk, IH; reflexivity.
Qed.

Lemma below_map (f : node -> list path) (g : node -> node) l i :
  below f i (map g l) = below (fun k => f (g k)) i l.
Proof.
  revert i; induction l as [|k l IH]; intros i; simpl; [reflexivity|].
  rewrite IH; reflexivity.
Qed.

(** Restyling moves no element: [find_all] gives the same paths. *)
Lemma find_all_from_restyle t tag new_style n : forall parent,
  find_all_from t (restyle tag new_style parent n) = find_all_from t n.
Proof.
  induction n as [name attrs contents IH| |] using node_forall_ind;
    intros parent; simpl; try reflexivity.
  f_equal. rewrite below_map. apply below_ext.
  revert IH; apply Forall_impl; auto.
Qed.

Lemma find_all_restyle_tags t parent l :
  find_all t (restyle_tags parent l) = find_all t l.
Proof.
  unfold restyle_tags.
  generalize get_style_mapping as m.
  intros m; revert l; induction m as [|[tag st] m IH]; intros l; simpl;
    [reflexivity|].
  rewrite IH. destruct (page_level tag); [reflexivity|].
  unfold find_all. rewrite below_map. apply below_ext.
  apply Forall_forall; intros k _. apply find_all_from_restyle.
Qed.

Lemma in_below (f : node -> list path) l : forall i q,
  In q (below f i l) ->
  exists j k q', q = (i + j) :: q' /\ nth_error l j = Some k /\ In q' (f k).
Proof.
  induction l as [|k l IH]; intros i q Hq; simpl in Hq; [contradiction|].
  apply in_app_or in Hq; destruct Hq as [Hq|Hq].
  - apply in_map_iff in Hq; destruct Hq as (q' & <- & Hq').
    exists 0, k, q'. rewrite Nat.add_0_r; auto.
  - destruct (IH _ _ Hq) as (j & k' & q' & -> & Hj & Hq').
    exists (S j), k', q'. rewrite Nat.add_succ_r; auto.
Qed.

(** Every path [find_all] returns leads to an element of that name. *)
Lemma find_all_from_named t n : forall q parent l j,
  nth_error l j = Some n ->
  In q (find_all_from t n) ->
  exists up attrs, element_at parent l (j :: q) = Some (up, t, attrs).
Proof.
  induction n as [name attrs contents IH| |] using node_forall_ind;
    intros q parent l j Hj Hin; simpl in Hin; try contradiction.
  apply in_app_or in Hin; destruct Hin as [Hin|Hin].
  - destruct (String.eqb_spec name t) as [->|]; [|contradiction].
    destruct Hin as [<-|[]].
    rewrite element_at_cons, Hj. eauto.
  - apply in_below in Hin; destruct Hin as (j' & k & q' & -> & Hk & Hq').
    rewrite element_at_cons, Hj; simpl.
    rewrite Forall_forall in IH.
    apply (IH k (nth_error_In _ _ Hk) q' name contents j' Hk Hq').
Qed.

Lemma find_all_named t parent l q :
  In q (find_all t l) ->
  exists up attrs, element_at parent l q = Some (up, t, attrs).
Proof.
  intros Hin. apply in_below in Hin.
  destruct Hin as (j & k & q' & -> & Hk & Hq').
  apply (find_all_from_named t k q' parent l j Hk Hq').
Qed.

Lemma find_named t parent l q :
  find t l = Some q ->
  exists up attrs, element_at parent l q = Some (up, t, attrs).
Proof.
  unfold find. intros H. apply find_all_named.
  destruct (find_all t l); [discriminate|].
  injection H as ->. left; reflexivity.
Qed.

(** What step 2 does to the element at a path: the element at [first] gets
    the style prepended, every other element keeps its attributes. *)
Lemma element_at_prepend_style style first : forall parent l p,
  element_at parent (update_at first (prepend_style style) l) p
  = option_map
      (fun '(up, name, attrs) =>
         (up, name,
          if path_eq_dec p first
          then set_attr attrs "style" (style ++ u " " ++ get attrs "style" [])
          else attrs))
      (element_at parent l p).
Proof.
  induction first as [|i0 first IH]; intros parent l p.
  - simpl. destruct (element_at parent l p) as [[[up name] attrs]|] eqn:E;
      [|reflexivity].
    destruct (path_eq_dec p []) as [->|]; [discriminate E|reflexivity].
  - destruct p as [|i p]; [reflexivity|].
    rewrite !element_at_cons.
    assert (Hne : i0 <> i ->
      forall (g : node -> node),
        nth_error (update_nth i0 g l) i = nth_error l i).
    { intros Hi g. rewrite nth_error_update_nth.
      apply Nat.eqb_neq in Hi; rewrite Hi; reflexivity. }
    destruct (Nat.eq_dec i0 i) as [->|Hi].
    + destruct first as [|j first].
      * simpl update_at. rewrite nth_error_update_nth, Nat.eqb_refl.
        destruct (nth_error l i) as [[name attrs contents| |]|]; simpl;
          try reflexivity.
        destruct p as [|j p].
        -- destruct (path_eq_dec [i] [i]); [reflexivity|congruence].
        -- destruct (element_at name contents (j :: p)) as [[[up nm] a]|];
             [|reflexivity].
           simpl. destruct (path_eq_dec (i :: j :: p) [i]);
             [discriminate|reflexivity].
      * change (update_at (i :: j :: first) (prepend_style style) l)
          with (update_nth i
                  (fun n =>
                     match n with
                     | Tag name attrs contents =>
                         Tag name attrs
                           (update_at (j :: first) (prepend_style style)
                              contents)
                     | _ => n
                     end) l).
        rewrite nth_error_update_nth, Nat.eqb_refl.
        destruct (nth_error l i) as [[name attrs contents| |]|];
          cbn [option_map]; try reflexivity.
        destruct p as [|j' p].
        -- destruct (path_eq_dec [i] (i :: j :: first));
             [discriminate|reflexivity].
        -- rewrite IH.
           destruct (element_at name contents (j' :: p)) as [[[up nm] a]|];
             [|reflexivity].
           simpl.
           destruct (path_eq_dec (j' :: p) (j :: first)),
             (path_eq_dec (i :: j' :: p) (i :: j :: first)); congruence.
    + assert (E : nth_error
                    (update_at (i0 :: first) (prepend_style style) l) i
                  = nth_error l i).
      { destruct first; apply Hne; assumption. }
      rewrite E.
      destruct (nth_error l i) as [[name attrs contents| |]|];
        try reflexivity.
      destruct p as [|j p].
      * simpl. destruct (path_eq_dec [i] (i0 :: first)); [congruence|].
        reflexivity.
      * destruct (element_at name contents (j :: p)) as [[[up nm] a]|];
          [|reflexivity].
        simpl. destruct (path_eq_dec (i :: j :: p) (i0 :: first));
          [congruence|reflexivity].
Qed.

(** [apply_inline_styles] keeps the shape of the tree and rewrites the
    attributes of each element on its own. *)
Lemma element_at_apply_inline_styles s p :
  element_at document (apply_inline_styles s) p
  = option_map
      (fun '(up, name, attrs) =>
         (up, name, inlined_attrs (is_first_p s p) name up attrs))
      (element_at document s p).
Proof.
  unfold apply_inline_styles, style_first_p, is_first_p, find, inlined_attrs.
  rewrite apply_tag_styles_restyle_tags, find_all_restyle_tags.
  destruct (hd_error (find_all "p" s)) as [first|].
  - rewrite element_at_prepend_style, element_at_restyle_tags.
    destruct (element_at document s p) as [[[up name] attrs]|];
      [|reflexivity].
    cbn [option_map]. destruct (path_eq_dec p first); reflexivity.
  - rewrite element_at_restyle_tags.
    destruct (element_at document s p) as [[[up name] attrs]|]; reflexivity.
Qed.

Lemma restyled_attrs_mapped name up attrs :
  In name mapped_tags ->
  restyled_attrs name up attrs
  = set_attr attrs "style" (style_of name ++ u " " ++ get attrs "style" []).
Proof.
  unfold mapped_tags, In.
  intros H; repeat (destruct H as [<-|H]; [vm_compute; reflexivity|]);
    contradiction.
Qed.

Lemma restyled_attrs_code up attrs :
  restyled_attrs "code" up attrs
  = if String.eqb up "pre" then attrs
    else set_attr attrs "style" (inline_code_style ++ get attrs "style" []).
Proof.
  transitivity (restyle_element "code" (style_of "code") up attrs);
    [vm_compute; reflexivity|].
  unfold restyle_element. rewrite String.eqb_refl. reflexivity.
Qed.

Lemma starts_with_conflict p q s :
  conflict p q = true -> starts_with p (q ++ s) = false.
Proof.
  revert q; induction p as [|a p IH]; intros [|b q]; simpl;
    try discriminate.
  destruct (N.eqb a b); simpl; auto.
Qed.

Lemma first_p_is_p s p up name attrs :
  element_at document s p = Some (up, name, attrs) ->
  name <> "p" -> is_first_p s p = false.
Proof.
  intros E Hname. unfold is_first_p.
  destruct (find "p" s) as [first|] eqn:F; [|reflexivity].
  destruct (path_eq_dec p first) as [->|]; [|reflexivity].
  destruct (find_named "p" document s first F) as (up' & attrs' & E').
  congruence.
Qed.

Lemma element_at_apply_inline_styles_inv s p up name attrs' :
  element_at document (apply_inline_styles s) p = Some (up, name, attrs') ->
  exists attrs,
    element_at document s p = Some (up, name, attrs)
    /\ attrs' = inlined_attrs (is_first_p s p) name up attrs.
Proof.
  rewrite element_at_apply_inline_styles.
  destruct (element_at document s p) as [[[up0 name0] attrs]|];
    [|discriminate].
  cbn [option_map]. intros H; injection H as -> -> <-. eauto.
Qed.

(** ** The Style Inliner: properties *)

(** C5, as stated, fails: [code] is a tag of the style mapping, and a
    [code] element inside a [pre] that carries a style of its own keeps
    exactly that style; the mapped style of [code] is not put before it. *)
Lemma code_in_pre_keeps_its_style :
  get_attr get_style_mapping "code"
  = Some (u "font-family: 'Fira Code', Consolas, monospace;")
  /\ element_at document pre_with_styled_code [0; 0]
     = Some ("pre", "code", [("style", u "color: red")])
  /\ element_at document (apply_inline_styles pre_with_styled_code) [0; 0]
     = Some ("pre", "code", [("style", u "color: red")])
  /\ starts_with (style_of "code") (u "color: red") = false.
Proof. repeat split; vm_compute; reflexivity. Qed.

(** C5, amended: for every element whose tag is one the tag loop styles
    with its mapped style ([mapped_tags]: the mapping's tags other than the
    page-level ones and [code]) and that carries an inline style before the
    Style Inliner runs, the style afterwards is the mapped style, a space,
    and the original style verbatim; on the first [p] of the document the
    lead paragraph style and a space come before the mapped style. *)
Theorem apply_inline_styles_prepends_mapped_style
    s p up name attrs original :
  element_at document s p = Some (up, name, attrs) ->
  In name mapped_tags ->
  get_attr attrs "style" = Some original ->
  exists attrs',
    element_at document (apply_inline_styles s) p = Some (up, name, attrs')
    /\ get_attr attrs' "style"
       = Some ((if is_first_p s p then first_p_style ++ u " " else [])
                 ++ style_of name ++ u " " ++ original).
Proof.
  intros E Hname Hstyle.
  rewrite element_at_apply_inline_styles, E. cbn [option_map].
  eexists; split; [reflexivity|].
  unfold inlined_attrs. rewrite restyled_attrs_mapped by assumption.
  assert (Hget : get attrs "style" [] = original)
    by (unfold get; rewrite Hstyle; reflexivity).
  destruct (is_first_p s p).
  - rewrite get_attr_set_attr, get_set_attr, Hget, <- app_assoc.
    reflexivity.
  - rewrite get_attr_set_attr, Hget. reflexivity.
Qed.

Lemma apply_inline_styles_prepends_mapped_style_witness :
  (exists attrs',
     element_at document
       (apply_inline_styles styled_heading_and_paragraphs) [0]
     = Some (document, "h1", attrs')
     /\ get_attr attrs' "style"
        = Some (style_of "h1" ++ u " " ++ u "color: red"))
  /\ (exists attrs',
        element_at document
          (apply_inline_styles styled_heading_and_paragraphs) [1]
        = Some (document, "p", attrs')
        /\ get_attr attrs' "style"
           = Some ((first_p_style ++ u " ")
                     ++ style_of "p" ++ u " " ++ u "margin: 0")).
Proof.
  split.
  - apply (apply_inline_styles_prepends_mapped_style
             styled_heading_and_paragraphs [0] document "h1"
             [("style", u "color: red")] (u "color: red"));
      [reflexivity | unfold mapped_tags; simpl; tauto | reflexivity].
  - apply (apply_inline_styles_prepends_mapped_style
             styled_heading_and_paragraphs [1] document "p"
             [("class", u "lead"); ("style", u "margin: 0")]
             (u "margin: 0"));
      [reflexivity | unfold mapped_tags; simpl; tauto | reflexivity].
Defined.

Lemma restyled_attrs_exempt name up attrs :
  page_level name = true \/ get_attr get_style_mapping name = None ->
  restyled_attrs name up attrs = attrs.
Proof.
  unfold restyled_attrs. generalize get_style_mapping as m.
  induction m as [|[tag st] m IH]; intros H; [reflexivity|].
  cbn [fold_left].
  destruct (page_level tag) eqn:Ptag.
  - apply IH. destruct H as [H|H]; [left; exact H|right].
    cbn [get_attr] in H. destruct (String.eqb tag name); [discriminate H|].
    exact H.
  - destruct (String.eqb name tag) eqn:E.
    + apply String.eqb_eq in E. subst tag. destruct H as [H|H].
      * rewrite H in Ptag. discriminate Ptag.
      * cbn [get_attr] in H. rewrite String.eqb_refl in H. discriminate H.
    + apply IH. destruct H as [H|H]; [left; exact H|right].
      cbn [get_attr] in H. destruct (String.eqb tag name); [discriminate H|].
      exact H.
Qed.

Lemma set_attr_twice attrs key v w :
  set_attr (set_attr attrs key v) key w = set_attr attrs key w.
Proof.
  induction attrs as [|[k x] attrs IH]; cbn [set_attr].
  - rewrite String.eqb_refl. reflexivity.
  - destruct (String.eqb k key) eqn:E; cbn [set_attr]; rewrite E.
    + reflexivity.
    + rewrite IH. reflexivity.
Qed.

Lemma mapped_tags_in name :
  existsb (String.eqb name) mapped_tags = true -> In name mapped_tags.
Proof.
  intros H. apply existsb_exists in H. destruct H as (t & Ht & E).
  apply String.eqb_eq in E. subst t. exact Ht.
Qed.

Lemma applied_style_occurs lead name up :
  occurs inline_code_style (applied_style lead name up)
  = String.eqb name "code" && negb (String.eqb up "pre")
  /\ occurs (style_of "pre") (applied_style lead name up)
     = String.eqb name "pre".
Proof.
  unfold applied_style.
  destruct (String.eqb name "code") eqn:C.
  - apply String.eqb_eq in C. subst name.
    destruct (String.eqb up "pre"); split; vm_compute; reflexivity.
  - destruct (existsb (String.eqb name) mapped_tags) eqn:M.
    + apply mapped_tags_in in M. unfold mapped_tags in M. cbn [In] in M.
      repeat (destruct M as [<-|M];
              [destruct lead; split; vm_compute; reflexivity|]).
      destruct M.
    + cbn [existsb mapped_tags] in M.
      repeat (apply orb_false_elim in M; destruct M as [? M]).
      split; [reflexivity|].
      match goal with
      | H : String.eqb name "pre" = false |- _ => rewrite H
      end.
      vm_compute. reflexivity.
Qed.

Lemma unmapped_exempt name :
  String.eqb name "code" = false ->
  existsb (String.eqb name) mapped_tags = false ->
  page_level name = true \/ get_attr get_style_mapping name = None.
Proof.
  intros C M. cbn [existsb mapped_tags] in M.
  repeat (apply orb_false_elim in M; destruct M as [? M]).
  unfold page_level.
  destruct (String.eqb name "body") eqn:B; [left; reflexivity|].
  destruct (String.eqb name "article_container") eqn:AC; [left; reflexivity|].
  destruct (String.eqb name "article_content") eqn:AN; [left; reflexivity|].
  right. unfold get_style_mapping. cbn [get_attr].
  rewrite !(String.eqb_sym _ name).
  repeat match goal with
         | H : String.eqb name _ = false |- _ => rewrite H; clear H
         end.
  reflexivity.
Qed.

Lemma with_style_before_cons added attrs :
  added <> [] ->
  with_style_before added attrs
  = set_attr attrs "style" (added ++ get attrs "style" []).
Proof. destruct added; [congruence|reflexivity]. Qed.

Lemma inlined_attrs_applied lead name up attrs :
  (lead = true -> name = "p") ->
  inlined_attrs lead name up attrs
  = with_style_before (applied_style lead name up) attrs.
Proof.
  intros L. unfold inlined_attrs, applied_style.
  destruct (String.eqb name "code") eqn:C.
  - apply String.eqb_eq in C. subst name.
    destruct lead; [discriminate (L eq_refl)|].
    rewrite restyled_attrs_code.
    destruct (String.eqb up "pre"); [reflexivity|].
    rewrite with_style_before_cons; [reflexivity|discriminate].
  - destruct (existsb (String.eqb name) mapped_tags) eqn:M.
    + apply mapped_tags_in in M.
      rewrite (restyled_attrs_mapped name up attrs M).
      rewrite with_style_before_cons
        by (destruct lead; [discriminate|];
            destruct (style_of name); discriminate).
      destruct lead.
      * rewrite get_set_attr, set_attr_twice.
        rewrite <- !app_assoc. reflexivity.
      * cbn [app]. rewrite <- !app_assoc. reflexivity.
    + rewrite (restyled_attrs_exempt name up attrs (unmapped_exempt _ C M)).
      destruct lead; [|reflexivity].
      rewrite (L eq_refl) in M. discriminate M.
Qed.

(** C6: what [apply_inline_styles] puts on an element, for every element
    of the document: before the style the element has it puts the inline
    code style on a [code] outside a [pre], nothing on a [code] in a [pre],
    whose attributes it leaves as they are, the mapped style of its tag on an
    element of another tag that it styles, and nothing on any other element.
    So the inline code style is put on the inline code elements only, the
    style of [pre] on the [pre] elements only, and the two on no element
    together; and an inline code element and a [pre] element never carry
    the same style: the first starts with the inline code style and not with
    the style of [pre], the second the other way round. *)
Theorem inline_code_style_differs_from_pre_style s :
  (forall p up name attrs,
      element_at document s p = Some (up, name, attrs) ->
      element_at document (apply_inline_styles s) p
      = Some (up, name,
              with_style_before (applied_style (is_first_p s p) name up) attrs)
      /\ occurs inline_code_style (applied_style (is_first_p s p) name up)
         = String.eqb name "code" && negb (String.eqb up "pre")
      /\ occurs (style_of "pre") (applied_style (is_first_p s p) name up)
         = String.eqb name "pre"
      /\ occurs inline_code_style (applied_style (is_first_p s p) name up)
         && occurs (style_of "pre") (applied_style (is_first_p s p) name up)
         = false)
  /\ (forall p1 up1 attrs1 p2 up2 attrs2,
        element_at document (apply_inline_styles s) p1
        = Some (up1, "code", attrs1) ->
        up1 <> "pre" ->
        element_at document (apply_inline_styles s) p2
        = Some (up2, "pre", attrs2) ->
        exists s1 s2,
          get_attr attrs1 "style" = Some s1
          /\ get_attr attrs2 "style" = Some s2
          /\ s1 <> s2
          /\ starts_with inline_code_style s1 = true
          /\ starts_with (style_of "pre") s1 = false
          /\ starts_with (style_of "pre") s2 = true
          /\ starts_with inline_code_style s2 = false).
Proof.
  split.
  - intros p up name attrs E.
    destruct (applied_style_occurs (is_first_p s p) name up) as [A B].
    split; [|split; [exact A|split; [exact B|]]].
    + rewrite element_at_apply_inline_styles, E. cbn [option_map].
      rewrite inlined_attrs_applied; [reflexivity|].
      intros F. destruct (string_dec name "p") as [|N]; [assumption|].
      rewrite (first_p_is_p _ _ _ _ _ E N) in F. discriminate F.
    + rewrite A, B.
      destruct (String.eqb name "code") eqn:C; [|reflexivity].
      apply String.eqb_eq in C. subst name.
      apply andb_false_r.
  - intros p1 up1 attrs1 p2 up2 attrs2 E1 Hup E2.
    apply element_at_apply_inline_styles_inv in E1, E2.
    destruct E1 as (a1 & E1 & ->), E2 as (a2 & E2 & ->).
    rewrite (first_p_is_p _ _ _ _ _ E1), (first_p_is_p _ _ _ _ _ E2)
      by discriminate.
    unfold inlined_attrs.
    rewrite restyled_attrs_code.
    rewrite (restyled_attrs_mapped "pre")
      by (unfold mapped_tags; simpl; tauto).
    apply String.eqb_neq in Hup; rewrite Hup.
    rewrite !get_attr_set_attr.
    do 2 eexists; split; [reflexivity|]; split; [reflexivity|].
    assert (A : starts_with inline_code_style
                  (inline_code_style ++ get a1 "style" []) = true)
      by apply starts_with_app.
    assert (B : starts_with inline_code_style
                  (style_of "pre" ++ u " " ++ get a2 "style" []) = false)
      by (apply starts_with_conflict; vm_compute; reflexivity).
    split; [|split; [|split; [|split]]].
    + intros H; rewrite H in A; congruence.
    + exact A.
    + apply starts_with_conflict; vm_compute; reflexivity.
    + apply starts_with_app.
    + exact B.
Qed.

Lemma inline_code_style_differs_from_pre_style_witness :
  element_at document (apply_inline_styles inline_and_block_code) [0; 1]
  = Some ("p", "code", [("style", inline_code_style)])
  /\ element_at document (apply_inline_styles inline_and_block_code) [1]
     = Some (document, "pre", [("style", style_of "pre" ++ u " ")])
  /\ element_at document (apply_inline_styles inline_and_block_code) [1; 0]
     = Some ("pre", "code", [])
  /\ exists s1 s2,
       get_attr [("style", inline_code_style)] "style" = Some s1
       /\ get_attr [("style", style_of "pre" ++ u " ")] "style" = Some s2
       /\ s1 <> s2
       /\ starts_with inline_code_style s1 = true
       /\ starts_with (style_of "pre") s1 = false
       /\ starts_with (style_of "pre") s2 = true
       /\ starts_with inline_code_style s2 = false.
Proof.
  destruct (inline_code_style_differs_from_pre_style inline_and_block_code)
    as [A B].
  split; [|split; [|split]].
  - apply (A [0; 1] "p" "code" [] eq_refl).
  - apply (A [1] document "pre" [] eq_refl).
  - apply (A [1; 0] "pre" "code" [] eq_refl).
  - apply (B [0; 1] "p" _ [1] document _);
      [vm_compute; reflexivity | discriminate | vm_compute; reflexivity].
Defined.

(** *** Elements the tag loop passes over, and code elements *)

(** X4: the page-level tags of the mapping and the tags that are not in the
    mapping are exempt: their elements keep their attributes. *)
Theorem apply_inline_styles_keeps_exempt_elements s p up name attrs :
  element_at document s p = Some (up, name, attrs) ->
  page_level name = true \/ get_attr get_style_mapping name = None ->
  element_at document (apply_inline_styles s) p = Some (up, name, attrs).
Proof.
  intros E H.
  rewrite element_at_apply_inline_styles, E. cbn [option_map].
  assert (Hp : name <> "p").
  { intros ->. destruct H as [H|H]; vm_compute in H; discriminate H. }
  rewrite (first_p_is_p s p up name attrs E Hp).
  unfold inlined_attrs. rewrite (restyled_attrs_exempt name up attrs H).
  reflexivity.
Qed.

Lemma apply_inline_styles_keeps_exempt_elements_witness :
  element_at document
    (apply_inline_styles
       [Tag "body" [("class", u "x")] [Tag "span" [] []]]) [0; 0]
  = Some ("body", "span", []).
Proof.
  apply (apply_inline_styles_keeps_exempt_elements
           [Tag "body" [("class", u "x")] [Tag "span" [] []]] [0; 0]
           "body" "span" []);
    [reflexivity|right; reflexivity].
Defined.

(** X5: a [code] element inside [pre] keeps its attributes; any other
    [code] element gets the inline code style, put right before its own
    style. *)
Theorem apply_inline_styles_code s p up attrs :
  element_at document s p = Some (up, "code", attrs) ->
  element_at document (apply_inline_styles s) p
  = Some (up, "code",
          if String.eqb up "pre" then attrs
          else set_attr attrs "style"
                 (inline_code_style ++ get attrs "style" [])).
Proof.
  intros E.
  rewrite element_at_apply_inline_styles, E. cbn [option_map].
  assert (Hp : "code" <> "p") by discriminate.
  rewrite (first_p_is_p s p up "code" attrs E Hp).
  unfold inlined_attrs. rewrite restyled_attrs_code. reflexivity.
Qed.

Lemma apply_inline_styles_code_witness :
  element_at document (apply_inline_styles inline_and_block_code) [0; 1]
  = Some ("p", "code",
          set_attr [] "style" (inline_code_style ++ get [] "style" [])).
Proof.
  apply (apply_inline_styles_code inline_and_block_code [0; 1] "p" []).
  reflexivity.
Defined.

(** ** The Calibrator: lemmas *)

Lemma stripped_strings_nonempty n :
  Forall (fun t => t <> []) (stripped_strings n).
Proof.
  induction n as [name attrs contents IH| |] using node_forall_ind; simpl.
  - induction IH as [|k l Hk _ IHl]; simpl; [constructor|].
    apply Forall_app; auto.
  - destruct (strip s); constructor; [discriminate|constructor].
  - constructor.
Qed.

Lemma concat_nonempty_nil (l : list text) :
  Forall (fun t => t <> []) l -> List.concat l = [] -> l = [].
Proof.
  destruct 1 as [|t l Ht _]; simpl; [reflexivity|].
  destruct t; [contradiction|discriminate].
Qed.

Lemma get_text_nil l : get_text l = [] -> flat_map stripped_strings l = [].
Proof.
  apply concat_nonempty_nil.
  induction l as [|k l IH]; simpl; [constructor|].
  apply Forall_app; split; [apply stripped_strings_nonempty|exact IH].
Qed.

Lemma vacuous_spec contents :
  vacuous contents = true ->
  flat_map stripped_strings contents = [] /\ find_all "img" contents = [].
Proof.
  unfold vacuous, find.
  destruct (get_text contents) eqn:T; [|discriminate].
  destruct (find_all "img" contents); [|discriminate].
  intros _; split; [apply get_text_nil; exact T|reflexivity].
Qed.

Lemma flat_map_ext_Forall {A B} (f g : A -> list B) l :
  Forall (fun k => f k = g k) l -> flat_map f l = flat_map g l.
Proof.
  induction 1 as [|k l Hk _ IH]; simpl; [reflexivity|].
  rewrite Hk, IH; reflexivity.
Qed.


(** Removing the empty paragraphs removes no text. *)
Lemma stripped_strings_remove_empty_p n :
  flat_map stripped_strings (remove_empty_p n) = stripped_strings n.
Proof.
  induction n as [name attrs contents IH| |] using node_forall_ind; simpl;
    try reflexivity; try (rewrite app_nil_r; reflexivity).
  destruct (String.eqb name "p" && vacuous contents) eqn:E; simpl.
  - apply andb_prop in E; destruct E as [_ E].
    symmetry; apply vacuous_spec; exact E.
  - rewrite app_nil_r. clear E.
    induction IH as [|k l Hk _ IHl]; simpl; [reflexivity|].
    rewrite flat_map_app, Hk, IHl; reflexivity.
Qed.

Lemma get_text_remove_empty_paragraphs l :
  get_text (remove_empty_paragraphs l) = get_text l.
Proof.
  unfold get_text, remove_empty_paragraphs. f_equal.
  induction l as [|k l IH]; simpl; [reflexivity|].
  rewrite flat_map_app, stripped_strings_remove_empty_p, IH; reflexivity.
Qed.

Lemma below_nil_iff (f : node -> list path) l : forall i,
  below f i l = [] <-> Forall (fun k => f k = []) l.
Proof.
  induction l as [|k l IH]; intros i; simpl.
  - split; auto.
  - split.
    + intros H; apply app_eq_nil in H; destruct H as [Hk Hl].
      constructor; [|apply (IH (S i)); exact Hl].
      destruct (f k); [reflexivity|discriminate].
    + intros H; inversion H as [|? ? Hk Hl]; subst.
      rewrite Hk; simpl. apply IH; exact Hl.
Qed.

(** Removing the empty paragraphs removes no image. *)
Lemma no_img_remove_empty_p n :
  Forall (fun k => find_all_from "img" k = []) (remove_empty_p n)
  <-> find_all_from "img" n = [].
Proof.
  induction n as [name attrs contents IH| |] using node_forall_ind; simpl;
    try (split; [reflexivity|repeat constructor]).
  assert (G : Forall (fun k => find_all_from "img" k = [])
                (flat_map remove_empty_p contents)
              <-> Forall (fun k => find_all_from "img" k = []) contents).
  { induction IH as [|k l Hk _ IHl]; simpl; [tauto|].
    rewrite Forall_app, Hk, IHl. split.
    - intros [? ?]; constructor; assumption.
    - intros H; inversion H; subst; auto. }
  destruct (String.eqb name "p" && vacuous contents) eqn:E.
  - apply andb_prop in E; destruct E as [Hp Hv].
    apply String.eqb_eq in Hp; subst name.
    apply vacuous_spec in Hv; destruct Hv as [_ Hv].
    unfold find_all in Hv. simpl. rewrite Hv. split; auto.
  - split.
    + intros H; inversion H as [|? ? Hk _]; subst. simpl in Hk.
      apply app_eq_nil in Hk; destruct Hk as [Hk1 Hk2].
      rewrite Hk1; simpl.
      apply below_nil_iff, G, (below_nil_iff _ _ 0); exact Hk2.
    + intros H. apply app_eq_nil in H; destruct H as [H1 H2].
      constructor; [|constructor]. simpl. rewrite H1; simpl.
      apply below_nil_iff, G, (below_nil_iff _ _ 0); exact H2.
Qed.

Lemma find_img_remove_empty_paragraphs l :
  find_all "img" (remove_empty_paragraphs l) = []
  <-> find_all "img" l = [].
Proof.
  unfold find_all, remove_empty_paragraphs.
  rewrite !below_nil_iff.
  induction l as [|k l IH]; simpl; [tauto|].
  rewrite Forall_app, no_img_remove_empty_p, IH. split.
  - intros [? ?]; constructor; assumption.
  - intros H; inversion H; subst; auto.
Qed.

Lemma vacuous_remove_empty_paragraphs l :
  vacuous (remove_empty_paragraphs l) = vacuous l.
Proof.
  unfold vacuous, find.
  rewrite get_text_remove_empty_paragraphs.
  destruct (get_text l); [|reflexivity].
  pose proof (find_img_remove_empty_paragraphs l) as H.
  destruct (find_all "img" (remove_empty_paragraphs l)),
    (find_all "img" l); try reflexivity.
  - destruct H as [H _]; discriminate (H eq_refl).
  - destruct H as [_ H]; discriminate (H eq_refl).
Qed.



Lemma without_style_set_attr attrs value :
  without_style (set_attr attrs "style" value) = without_style attrs.
Proof.
  induction attrs as [|[k v] attrs IH]; simpl; [reflexivity|].
  destruct (String.eqb k "style") eqn:E; simpl; rewrite E; simpl;
    [reflexivity|]. rewrite IH; reflexivity.
Qed.

Lemma map_ext_Forall {A B} (f g : A -> B) l :
  Forall (fun k => f k = g k) l -> map f l = map g l.
Proof.
  induction 1 as [|k l Hk _ IH]; simpl; [reflexivity|].
  rewrite Hk, IH; reflexivity.
Qed.

Lemma erase_style_restyle tag new_style n : forall parent,
  erase_style (restyle tag new_style parent n) = erase_style n.
Proof.
  induction n as [name attrs contents IH| |] using node_forall_ind;
    intros parent; simpl; try reflexivity.
  f_equal.
  - destruct (String.eqb name tag); [|reflexivity].
    unfold restyle_element.
    destruct (String.eqb tag "code"); [destruct (String.eqb parent "pre")|];
      try reflexivity; apply without_style_set_attr.
  - rewrite map_map. apply map_ext_Forall.
    revert IH; apply Forall_impl; auto.
Qed.

Lemma erase_style_restyle_tags parent l :
  map erase_style (restyle_tags parent l) = map erase_style l.
Proof.
  unfold restyle_tags.
  generalize get_style_mapping as m.
  intros m; revert l; induction m as [|[tag st] m IH]; intros l; simpl;
    [reflexivity|].
  rewrite IH. destruct (page_level tag); [reflexivity|].
  rewrite map_map. apply map_ext_Forall.
  apply Forall_forall; intros k _. apply erase_style_restyle.
Qed.

Lemma map_update_nth {A B} (g : A -> B) (f : A -> A) i l :
  (forall x, g (f x) = g x) -> map g (update_nth i f l) = map g l.
Proof.
  intros H; revert i; induction l as [|x l IH]; intros [|i]; simpl;
    try reflexivity.
  - rewrite H; reflexivity.
  - rewrite IH; reflexivity.
Qed.

Lemma erase_style_prepend_style style p : forall l,
  map erase_style (update_at p (prepend_style style) l) = map erase_style l.
Proof.
  induction p as [|i p IH]; intros l; [reflexivity|].
  destruct p as [|j p].
  - simpl. apply map_update_nth.
    intros [name attrs contents| |]; simpl; try reflexivity.
    rewrite without_style_set_attr; reflexivity.
  - change (update_at (i :: j :: p) (prepend_style style) l)
      with (update_nth i
              (fun n =>
                 match n with
                 | Tag name attrs contents =>
                     Tag name attrs
                       (update_at (j :: p) (prepend_style style) contents)
                 | _ => n
                 end) l).
    apply map_update_nth.
    intros [name attrs contents| |]; try reflexivity.
    cbn [erase_style]. rewrite IH; reflexivity.
Qed.

Lemma erase_style_apply_inline_styles s :
  map erase_style (apply_inline_styles s) = map erase_style s.
Proof.
  unfold apply_inline_styles, style_first_p.
  rewrite apply_tag_styles_restyle_tags.
  destruct (find "p" (restyle_tags document s)).
  - rewrite erase_style_prepend_style. apply erase_style_restyle_tags.
  - apply erase_style_restyle_tags.
Qed.

Lemma stripped_strings_erase_style n :
  stripped_strings (erase_style n) = stripped_strings n.
Proof.
  induction n as [name attrs contents IH| |] using node_forall_ind; simpl;
    try reflexivity.
  rewrite flat_map_concat_map, map_map, <- flat_map_concat_map.
  apply flat_map_ext_Forall; exact IH.
Qed.

Lemma find_all_from_erase_style t n :
  find_all_from t (erase_style n) = find_all_from t n.
Proof.
  induction n as [name attrs contents IH| |] using node_forall_ind; simpl;
    try reflexivity.
  f_equal. rewrite below_map. apply below_ext; exact IH.
Qed.

Lemma vacuous_erase_style l : vacuous (map erase_style l) = vacuous l.
Proof.
  unfold vacuous, find, get_text, find_all.
  rewrite below_map.
  rewrite (below_ext _ (find_all_from "img"))
    by (apply Forall_forall; intros k _; apply find_all_from_erase_style).
  rewrite flat_map_concat_map, map_map, <- flat_map_concat_map.
  rewrite (flat_map_ext_Forall _ stripped_strings)
    by (apply Forall_forall; intros k _; apply stripped_strings_erase_style).
  reflexivity.
Qed.

Lemma remove_empty_p_erase_style n :
  remove_empty_p (erase_style n) = map erase_style (remove_empty_p n).
Proof.
  induction n as [name attrs contents IH| |] using node_forall_ind; simpl;
    try reflexivity.
  rewrite vacuous_erase_style.
  destruct (String.eqb name "p" && vacuous contents); [reflexivity|].
  simpl. do 2 f_equal.
  induction IH as [|k l Hk _ IHl]; simpl; [reflexivity|].
  rewrite Hk, IHl, map_app; reflexivity.
Qed.

Lemma remove_empty_paragraphs_erase_style l :
  remove_empty_paragraphs (map erase_style l)
  = map erase_style (remove_empty_paragraphs l).
Proof.
  unfold remove_empty_paragraphs.
  induction l as [|k l IH]; simpl; [reflexivity|].
  rewrite remove_empty_p_erase_style, IH, map_app; reflexivity.
Qed.

(** ** The Calibrator: properties *)


Lemma existsb_flat_map {A B} (f : B -> bool) (g : A -> list B) l :
  existsb f (flat_map g l) = existsb (fun x => existsb f (g x)) l.
Proof.
  induction l as [|x l IH]; simpl; [reflexivity|].
  rewrite existsb_app, IH. reflexivity.
Qed.

Lemma existsb_never {A} (f : A -> bool) l :
  Forall (fun x => f x = false) l -> existsb f l = false.
Proof.
  induction 1 as [|x l Hx _ IH]; simpl; [reflexivity|].
  rewrite Hx, IH. reflexivity.
Qed.

Lemma remove_empty_p_leaves_none n :
  existsb empty_p (remove_empty_p n) = false.
Proof.
  induction n as [name attrs contents IH| |] using node_forall_ind;
    [|reflexivity|reflexivity].
  cbn [remove_empty_p].
  destruct (String.eqb name "p" && vacuous contents) eqn:E; [reflexivity|].
  cbn [existsb empty_p]. rewrite orb_false_r.
  change (flat_map remove_empty_p contents)
    with (remove_empty_paragraphs contents).
  rewrite vacuous_remove_empty_paragraphs, E.
  unfold remove_empty_paragraphs. rewrite existsb_flat_map.
  apply existsb_never. exact IH.
Qed.







(** X6: after [calibrate_code] the tree holds no paragraph without text
    and without image. *)
Theorem calibrate_soup_leaves_no_empty_paragraph s :
  existsb empty_p (calibrate_soup s) = false.
Proof.
  unfold calibrate_soup, remove_empty_paragraphs.
  rewrite existsb_flat_map. apply existsb_never.
  apply Forall_forall. intros n _. apply remove_empty_p_leaves_none.
Qed.

(** ** The image generation request *)

(** C3, as stated, fails: two configurations whose resolution settings
    select different resolutions, low and high, send the same request, and
    the client that answers with the contents of the request receives the
    same contents from both. *)
Lemma image_request_same_for_1k_and_4k :
  res_map_get res_map (IMAGE_RESOLUTION (config_with_resolution (u "1k")))
  = Some MEDIA_RESOLUTION_LOW
  /\ res_map_get res_map (IMAGE_RESOLUTION (config_with_resolution (u "4k")))
     = Some MEDIA_RESOLUTION_HIGH
  /\ image_request (config_with_resolution (u "1k")) (u "a cat")
     = image_request (config_with_resolution (u "4k")) (u "a cat")
  /\ generate_image_from_prompt (config_with_resolution (u "1k")) 1
       no_files (u "a cat") (u "assets/gen_1.png")
     = (true,
        write_bytes no_files (u "assets/gen_1.png")
          (u "Generate an image of: a cat"))
  /\ generate_image_from_prompt (config_with_resolution (u "4k")) 1
       no_files (u "a cat") (u "assets/gen_1.png")
     = (true,
        write_bytes no_files (u "assets/gen_1.png")
          (u "Generate an image of: a cat")).
Proof. repeat split. Qed.

(** C3, amended: the request [generate_image_from_prompt] sends carries the
    image model name, the prompt and the search tool when the toggle is
    set, and nothing else; two configurations that agree on the client, the
    image model and the toggle send the same request and get the same
    result, whatever their resolution settings. *)
Theorem image_request_independent_of_resolution
    (cfg cfg' : Config) k fs prompt output_path :
  client cfg = client cfg' ->
  IMG_MODEL_NAME cfg = IMG_MODEL_NAME cfg' ->
  ENABLE_SEARCH cfg = ENABLE_SEARCH cfg' ->
  image_request cfg prompt
  = {| req_model := IMG_MODEL_NAME cfg;
       req_contents := u "Generate an image of: " ++ prompt;
       req_config :=
         Some {| tools := if ENABLE_SEARCH cfg then Some [GoogleSearch]
                          else None |} |}
  /\ image_request cfg prompt = image_request cfg' prompt
  /\ generate_image_from_prompt cfg k fs prompt output_path
     = generate_image_from_prompt cfg' k fs prompt output_path.
Proof.
  intros Hclient Hmodel Hsearch.
  assert (E : image_request cfg prompt = image_request cfg' prompt)
    by (unfold image_request; rewrite Hmodel, Hsearch; reflexivity).
  split; [|split; [exact E|]].
  - unfold image_request. destruct (ENABLE_SEARCH cfg); reflexivity.
  - unfold generate_image_from_prompt. rewrite Hclient, E. reflexivity.
Qed.

Lemma image_request_independent_of_resolution_witness :
  image_request (config_with_resolution (u "1k")) (u "a cat")
  = {| req_model := u "gemini-3-pro-image-preview";
       req_contents := u "Generate an image of: " ++ u "a cat";
       req_config := Some {| tools := None |} |}
  /\ image_request (config_with_resolution (u "1k")) (u "a cat")
     = image_request (config_with_resolution (u "4k")) (u "a cat")
  /\ generate_image_from_prompt (config_with_resolution (u "1k")) 1
       no_files (u "a cat") (u "assets/gen_1.png")
     = generate_image_from_prompt (config_with_resolution (u "4k")) 1
         no_files (u "a cat") (u "assets/gen_1.png").
Proof.
  apply (image_request_independent_of_resolution
           (config_with_resolution (u "1k"))
           (config_with_resolution (u "4k")));
    reflexivity.
Defined.

(** ** The title *)

(** C9 on the code: a document whose first line is a lone hash sign and
    whose second line is [foo] has no line of the form [# Title], and yet
    its title is [foo], not the default title: the white space of the
    pattern runs over the line feed and the capture is the next line.  The
    assembled document carries [foo] in its title field. *)
Lemma title_of_bare_hash_then_text :
  lines bare_hash_then_text = [u "#"; u "foo"]
  /\ map heading_text (lines bare_hash_then_text) = [None; None]
  /\ title_of bare_hash_then_text = u "foo"
  /\ text_eqb (title_of bare_hash_then_text) default_title = false
  /\ (forall css body,
        title_field
          (build_full_html css body (title_of bare_hash_then_text))
        = Some (u "foo")).
Proof.
  do 4 (split; [reflexivity|]). intros css body. vm_compute. reflexivity.
Qed.

(** C10 on the code: of the lines [#], [# A], [# B] the second and the
    third have the form [# text]; the captured text of the first of them is
    [A], and the title is [# A], which the assembled document carries in
    its title field. *)
Lemma title_of_bare_hash_then_headings :
  map heading_text (lines bare_hash_then_headings)
  = [None; Some (u "A"); Some (u "B")]
  /\ title_of bare_hash_then_headings = u "# A"
  /\ (forall css body,
        title_field
          (build_full_html css body (title_of bare_hash_then_headings))
        = Some (u "# A")).
Proof.
  do 2 (split; [reflexivity|]). intros css body. vm_compute. reflexivity.
Qed.

(** ** Replacing spans from left to right *)

Lemma firstn_plus {A} (l : list A) n k :
  firstn (n + k) l = firstn n l ++ firstn k (skipn n l).
Proof.
  revert l; induction n as [|n IH]; intros [|x l]; simpl;
    try reflexivity.
  - rewrite firstn_nil; reflexivity.
  - rewrite IH; reflexivity.
Qed.

Lemma skipn_plus {A} (l : list A) n k :
  skipn (n + k) l = skipn k (skipn n l).
Proof.
  revert l; induction n as [|n IH]; intros [|x l]; simpl;
    try reflexivity.
  - rewrite skipn_nil; reflexivity.
  - apply IH.
Qed.

Lemma ordered_weaken pos pos' len rs :
  pos' <= pos -> ordered pos len rs -> ordered pos' len rs.
Proof.
  destruct rs as [|[[a b] r] rs]; simpl; [auto|].
  intros H (H1 & H2 & H3 & H4). repeat split; auto; lia.
Qed.

Lemma spans_ordered_weaken pos pos' len ms :
  pos' <= pos -> spans_ordered pos len ms -> spans_ordered pos' len ms.
Proof.
  destruct ms as [|m ms]; simpl; [auto|].
  intros H (H1 & H2 & H3 & H4). repeat split; auto; lia.
Qed.

Lemma chosen_ordered len ms : forall pos ds,
  spans_ordered pos len ms -> ordered pos len (chosen ms ds).
Proof.
  induction ms as [|m ms IH]; intros pos ds H; [exact I|].
  destruct H as (H1 & H2 & H3 & H4).
  destruct ds as [|[r|] ds]; simpl; [exact I| |].
  - repeat split; auto.
  - apply (ordered_weaken (span_end m)); [lia|]. auto.
Qed.

(** The reversed loop of slice assignments makes the replacements that
    [splice] makes from left to right, when the spans are in order. *)
Lemma apply_replacements_from content : forall rs pos,
  pos <= List.length content ->
  ordered pos (List.length content) rs ->
  apply_replacements content rs
  = firstn pos content ++ splice pos (skipn pos content) rs.
Proof.
  unfold apply_replacements.
  induction rs as [|[[a b] r] rs IH]; intros pos Hpos Hord; simpl.
  - symmetry; apply firstn_skipn.
  - destruct Hord as (H1 & H2 & H3 & H4).
    rewrite fold_left_app; simpl.
    rewrite (IH b H3 H4).
    rewrite Nat.max_r by exact H2.
    assert (Hlen : List.length (firstn b content) = b)
      by (rewrite length_firstn; lia).
    rewrite firstn_app, Hlen, firstn_firstn.
    replace (a - b) with 0 by lia.
    rewrite Nat.min_l by exact H2. simpl. rewrite app_nil_r.
    rewrite skipn_app, Hlen, Nat.sub_diag.
    rewrite (skipn_all2 (firstn b content)) by lia. simpl.
    replace a with (pos + (a - pos)) at 1 by lia.
    rewrite firstn_plus, <- app_assoc.
    replace b with (pos + (b - pos)) at 2 by lia.
    rewrite skipn_plus. reflexivity.
Qed.

Lemma apply_replacements_splice content rs :
  ordered 0 (List.length content) rs ->
  apply_replacements content rs = splice 0 content rs.
Proof.
  intros H. rewrite (apply_replacements_from content rs 0) by (auto; lia).
  reflexivity.
Qed.

Lemma splice_advance n len rs : forall pos s,
  ordered (pos + n) len rs ->
  splice pos s rs = firstn n s ++ splice (pos + n) (skipn n s) rs.
Proof.
  destruct rs as [|[[a b] r] rs]; intros pos s H; simpl.
  - symmetry; apply firstn_skipn.
  - destruct H as (H1 & H2 & H3 & H4).
    replace (a - pos) with (n + (a - (pos + n))) by lia.
    rewrite firstn_plus, <- app_assoc.
    replace (b - pos) with (n + (b - (pos + n))) by lia.
    rewrite skipn_plus. reflexivity.
Qed.

(** *** The scan of [finditer] *)

Lemma finditer_from_skip m : forall s pos k,
  k <= List.length s ->
  finditer_from m pos k s = finditer_from m (pos + k) 0 (skipn k s).
Proof.
  induction s as [|c s IH]; intros pos [|k] Hk; simpl in Hk |- *;
    try reflexivity; try (rewrite Nat.add_0_r; reflexivity); try lia.
  rewrite IH by lia. f_equal. lia.
Qed.

Lemma finditer_from_match m s pos gs n :
  m s = Some (gs, n) -> 1 <= n <= List.length s ->
  finditer_from m pos 0 s
  = {| span_start := pos; span_end := pos + n; groups := gs |}
      :: finditer_from m (pos + n) 0 (skipn n s).
Proof.
  intros Hm Hn. destruct s as [|c s]; [simpl in Hn; lia|].
  simpl finditer_from. rewrite Hm. f_equal.
  rewrite finditer_from_skip by (simpl in Hn; lia).
  destruct n as [|n]; [lia|]. simpl. rewrite Nat.sub_0_r.
  f_equal. lia.
Qed.

Lemma finditer_from_copy m c s pos :
  m (c :: s) = None ->
  finditer_from m pos 0 (c :: s) = finditer_from m (S pos) 0 s.
Proof. intros Hm. simpl. rewrite Hm. reflexivity. Qed.

(** Induction along the scan. *)
Lemma scan_ind (m : matcher) (Hok : matcher_ok m) (P : list N -> Prop) :
  P [] ->
  (forall c s, m (c :: s) = None -> P s -> P (c :: s)) ->
  (forall s gs n, m s = Some (gs, n) -> P (skipn n s) -> P s) ->
  forall s : list N, P s.
Proof.
  intros Hnil Hcopy Hmatch s.
  remember (List.length s) as k eqn:Hk.
  revert s Hk. induction k as [k IH] using lt_wf_ind. intros s Hk.
  destruct s as [|c s]; [exact Hnil|].
  destruct (m (c :: s)) as [[gs n]|] eqn:Hm.
  - destruct (Hok _ _ _ Hm) as [Hn1 Hn2].
    apply (Hmatch _ gs n Hm).
    apply (IH (List.length (skipn n (c :: s)))); [|reflexivity].
    rewrite length_skipn. subst k. lia.
  - apply Hcopy; [exact Hm|].
    apply (IH (List.length s)); [subst k; simpl; lia|reflexivity].
Qed.

Lemma finditer_spans_ordered m :
  matcher_ok m ->
  forall s pos,
    spans_ordered pos (pos + List.length s) (finditer_from m pos 0 s).
Proof.
  intros Hok s. induction s as [|c s Hm IH|s gs n Hm IH]
    using (scan_ind m Hok); intros pos.
  - exact I.
  - rewrite finditer_from_copy by exact Hm.
    apply (spans_ordered_weaken (S pos)); [lia|].
    replace (pos + List.length (c :: s)) with (S pos + List.length s)
      by (simpl; lia).
    apply IH.
  - destruct (Hok _ _ _ Hm) as [Hn1 Hn2].
    rewrite (finditer_from_match m s pos gs n Hm) by lia.
    simpl. repeat split; try lia.
    specialize (IH (pos + n)). rewrite length_skipn in IH.
    replace (pos + n + (List.length s - n)) with (pos + List.length s)
      in IH by lia.
    exact IH.
Qed.

(** The replacements chosen for the matches of [finditer], made from left
    to right, rewrite the text as [Rewrites] describes. *)
Lemma splice_rewrites m R :
  matcher_ok m ->
  forall s pos ds,
    Forall2 (fun mt d => R (groups mt) d) (finditer_from m pos 0 s) ds ->
    Rewrites m R s (splice pos s (chosen (finditer_from m pos 0 s) ds)).
Proof.
  intros Hok s. induction s as [|c s Hm IH|s gs n Hm IH]
    using (scan_ind m Hok); intros pos ds HR.
  - simpl. constructor.
  - rewrite finditer_from_copy in * by exact Hm.
    rewrite (splice_advance 1 (S pos + List.length s)).
    + simpl. apply rewrites_copy; [exact Hm|].
      replace (pos + 1) with (S pos) by lia. apply IH; exact HR.
    + replace (pos + 1) with (S pos) by lia.
      apply chosen_ordered, finditer_spans_ordered; exact Hok.
  - destruct (Hok _ _ _ Hm) as [Hn1 Hn2].
    rewrite (finditer_from_match m s pos gs n Hm) in * by lia.
    inversion HR as [|mt d ms ds' Hd Hds]; subst.
    simpl in Hd. destruct d as [r|]; simpl.
    + rewrite Nat.sub_diag; simpl.
      replace (pos + n - pos) with n by lia.
      apply (rewrites_replace m R s gs n r); auto.
    + rewrite (splice_advance n (pos + n + List.length (skipn n s))).
      * apply (rewrites_keep m R s gs n); auto.
      * apply chosen_ordered, finditer_spans_ordered; exact Hok.
Qed.


(** ** Lemmas on the patterns *)

Lemma text_eqb_refl a : text_eqb a a = true.
Proof. induction a as [|x a IH]; simpl; [|rewrite N.eqb_refl]; auto. Qed.

Lemma text_eqb_eq a b : text_eqb a b = true <-> a = b.
Proof.
  split; [|intros ->; apply text_eqb_refl].
  revert b; induction a as [|x a IH]; intros [|y b]; simpl;
    try discriminate; [reflexivity|].
  intros H; apply andb_prop in H; destruct H as [Hx Hab].
  apply N.eqb_eq in Hx; subst. f_equal; auto.
Qed.

Lemma break_on_app stop s :
  fst (break_on stop s) ++ snd (break_on stop s) = s.
Proof.
  induction s as [|c s IH]; simpl; [reflexivity|].
  destruct (stop c); [reflexivity|].
  destruct (break_on stop s) as [a b]; simpl in *. f_equal; exact IH.
Qed.

Lemma break_on_fst stop s :
  Forall (fun c => stop c = false) (fst (break_on stop s)).
Proof.
  induction s as [|c s IH]; simpl; [constructor|].
  destruct (stop c) eqn:E; [constructor|].
  destruct (break_on stop s) as [a b]; simpl in *. constructor; auto.
Qed.


(** A run that does not stop, then a text that is empty or stops at once. *)
Lemma break_on_intro stop a b :
  Forall (fun c => stop c = false) a ->
  match b with [] => True | c :: _ => stop c = true end ->
  break_on stop (a ++ b) = (a, b).
Proof.
  intros Ha Hb. induction Ha as [|c a Hc _ IH]; simpl.
  - destruct b as [|c b]; [reflexivity|]. simpl. rewrite Hb. reflexivity.
  - rewrite Hc, IH. reflexivity.
Qed.



Lemma lazy_until_paren_intro d rest :
  Forall (fun c => plain c = true) d ->
  lazy_until_paren (d ++ 41%N :: rest) = Some d.
Proof.
  induction 1 as [|c d Hc _ IH]; simpl; [reflexivity|].
  unfold plain in Hc. apply andb_prop in Hc; destruct Hc as [H1 H2].
  apply negb_true_iff in H1, H2. rewrite H1, H2, IH. reflexivity.
Qed.

Lemma lazy_until_paren_inv s : forall d,
  lazy_until_paren s = Some d ->
  Forall (fun c => plain c = true) d
  /\ exists rest, s = d ++ 41%N :: rest.
Proof.
  induction s as [|c s IH]; simpl; intros d H; [discriminate|].
  destruct (c =? 41)%N eqn:E1.
  - injection H as <-. apply N.eqb_eq in E1; subst.
    split; [constructor|exists s; reflexivity].
  - destruct (c =? 10)%N eqn:E2; [discriminate|].
    destruct (lazy_until_paren s) as [d'|]; [|discriminate].
    injection H as <-. destruct (IH d' eq_refl) as (Hd & rest & ->).
    split; [|exists rest; reflexivity].
    constructor; [|exact Hd]. unfold plain. rewrite E1, E2. reflexivity.
Qed.

(** A plain run passes the scan on. *)
Lemma lazy_until_paren_through p s :
  Forall (fun c => plain c = true) p ->
  lazy_until_paren (p ++ s) = option_map (app p) (lazy_until_paren s).
Proof.
  induction 1 as [|c p Hc _ IH]; simpl.
  - destruct (lazy_until_paren s); reflexivity.
  - unfold plain in Hc. apply andb_prop in Hc; destruct Hc as [H1 H2].
    apply negb_true_iff in H1, H2. rewrite H1, H2, IH.
    destruct (lazy_until_paren s); reflexivity.
Qed.

(** A run with a code point that is not plain decides the scan. *)
Lemma lazy_until_paren_decided p s :
  forallb plain p = false ->
  lazy_until_paren (p ++ s) = lazy_until_paren p.
Proof.
  induction p as [|c p IH]; simpl; [discriminate|].
  unfold plain at 1.
  destruct (c =? 41)%N; [reflexivity|].
  destruct (c =? 10)%N; [reflexivity|]. simpl.
  intros H. rewrite (IH H). reflexivity.
Qed.

Lemma match_literal_ignorecase_inv literal : forall s s1,
  match_literal_ignorecase literal s = Some s1 ->
  exists l,
    s = l ++ s1
    /\ Forall2 (fun p c => ignorecase_eq p c = true) literal l.
Proof.
  induction literal as [|p literal IH]; intros s s1 H; simpl in H.
  - injection H as <-. exists []. split; [reflexivity|constructor].
  - destruct s as [|c s]; [discriminate|].
    destruct (ignorecase_eq p c) eqn:E; [|discriminate].
    destruct (IH _ _ H) as (l & -> & Hl).
    exists (c :: l). split; [reflexivity|constructor; assumption].
Qed.

Lemma match_literal_ignorecase_intro literal l s1 :
  Forall2 (fun p c => ignorecase_eq p c = true) literal l ->
  match_literal_ignorecase literal (l ++ s1) = Some s1.
Proof.
  induction 1 as [|p c literal l Hpc _ IH]; simpl.
  - destruct s1; reflexivity.
  - rewrite Hpc. exact IH.
Qed.

(** What a match of the placeholder pattern looks like. *)
Lemma image_marker_inv s gs n :
  image_marker s = Some (gs, n) ->
  exists l desc rest,
    s = l ++ desc ++ 41%N :: rest
    /\ Forall2 (fun p c => ignorecase_eq p c = true) marker_literal l
    /\ Forall (fun c => plain c = true) desc
    /\ gs = [desc]
    /\ n = 9 + List.length desc + 1.
Proof.
  unfold image_marker. fold marker_literal.
  destruct (match_literal_ignorecase marker_literal s) as [s1|] eqn:E1;
    [|discriminate].
  destruct (lazy_until_paren s1) as [desc|] eqn:E2; [|discriminate].
  intros H; injection H as <- <-.
  apply match_literal_ignorecase_inv in E1; destruct E1 as (l & -> & Hl).
  apply lazy_until_paren_inv in E2; destruct E2 as (Hd & rest & ->).
  exists l, desc, rest. auto.
Qed.

Lemma image_marker_intro l desc rest :
  Forall2 (fun p c => ignorecase_eq p c = true) marker_literal l ->
  Forall (fun c => plain c = true) desc ->
  image_marker (l ++ desc ++ 41%N :: rest)
  = Some ([desc], 9 + List.length desc + 1).
Proof.
  intros Hl Hd. unfold image_marker. fold marker_literal.
  rewrite (match_literal_ignorecase_intro _ _ _ Hl).
  rewrite (lazy_until_paren_intro _ _ Hd). reflexivity.
Qed.

Lemma marker_literal_length l :
  Forall2 (fun p c => ignorecase_eq p c = true) marker_literal l ->
  List.length l = 9.
Proof. intros H. apply Forall2_length in H. rewrite <- H. reflexivity. Qed.

Lemma image_marker_ok : matcher_ok image_marker.
Proof.
  intros s gs n H. apply image_marker_inv in H.
  destruct H as (l & desc & rest & -> & Hl & _ & _ & ->).
  rewrite !length_app, (marker_literal_length l Hl). simpl. lia.
Qed.

(** What a match of the local image pattern looks like. *)
Lemma local_image_inv s gs n :
  local_image s = Some (gs, n) ->
  exists alt_text img_path_str rest,
    s = u "![" ++ alt_text ++ u "](" ++ img_path_str ++ 41%N :: rest
    /\ Forall (fun c => (93 =? c)%N = false) alt_text
    /\ Forall (fun c => (41 =? c)%N = false) img_path_str
    /\ img_path_str <> []
    /\ not_embedded_or_remote (img_path_str ++ 41%N :: rest) = true
    /\ gs = [alt_text; img_path_str]
    /\ n = 2 + List.length alt_text + 2 + List.length img_path_str + 1.
Proof.
  unfold local_image.
  destruct s as [|c0 [|c1 s1]]; try discriminate.
  destruct ((c0 =? 33) && (c1 =? 91))%N eqn:E0; [|discriminate].
  apply andb_prop in E0; destruct E0 as [E0 E1].
  apply N.eqb_eq in E0, E1; subst c0 c1.
  pose proof (break_on_app (N.eqb 93) s1) as A1.
  pose proof (break_on_fst (N.eqb 93) s1) as F1.
  destruct (break_on (N.eqb 93) s1) as [alt_text s2]; simpl in A1, F1.
  destruct s2 as [|c2 [|c3 s3]]; try discriminate.
  destruct ((c2 =? 93) && (c3 =? 40))%N eqn:E2; [|discriminate].
  apply andb_prop in E2; destruct E2 as [E2 E3].
  apply N.eqb_eq in E2, E3; subst c2 c3.
  destruct (not_embedded_or_remote s3) eqn:L; [|discriminate].
  pose proof (break_on_app (N.eqb 41) s3) as A2.
  pose proof (break_on_fst (N.eqb 41) s3) as F2.
  destruct (break_on (N.eqb 41) s3) as [img_path_str s4]; simpl in A2, F2.
  destruct img_path_str as [|c5 img_path_str]; [discriminate|].
  destruct s4 as [|c4 s5]; [discriminate|].
  destruct (c4 =? 41)%N eqn:E4; [|discriminate].
  apply N.eqb_eq in E4; subst c4.
  cbn [andb]. intros H; injection H as <- <-.
  exists alt_text, (c5 :: img_path_str), s5.
  subst s1 s3. repeat split; auto; discriminate.
Qed.


Lemma local_image_ok : matcher_ok local_image.
Proof.
  intros s gs n H. apply local_image_inv in H.
  destruct H as (a & p & rest & -> & _ & _ & _ & _ & _ & ->).
  rewrite !length_app. simpl. lia.
Qed.

(** ** The title: where it is the heading text *)

Lemma rest_of_line_intro c t rest :
  Forall (fun x => x <> 10%N) (c :: t) ->
  match rest with [] => True | x :: _ => x = 10%N end ->
  rest_of_line ((c :: t) ++ rest) = Some (c :: t).
Proof.
  intros Ht Hr. unfold rest_of_line. rewrite break_on_intro.
  - reflexivity.
  - eapply Forall_impl; [|exact Ht].
    intros x Hx. apply N.eqb_neq. congruence.
  - destruct rest as [|x rest]; [exact I|]. subst x. reflexivity.
Qed.

Lemma greedy_space_intro ws rest title :
  rest_of_line rest = Some title -> greedy_space ws rest = Some title.
Proof.
  intros H. induction ws as [|w ws IH]; simpl; [exact H|].
  rewrite IH. reflexivity.
Qed.

Lemma title_line_intro w ws c t rest :
  is_space w = true ->
  forallb is_space ws = true ->
  is_space c = false ->
  forallb (fun x => negb (x =? 10)%N) t = true ->
  match rest with [] => True | x :: _ => x = 10%N end ->
  title_line (u "#" ++ w :: ws ++ c :: t ++ rest) = Some (c :: t).
Proof.
  intros Hw Hws Hc Ht Hr.
  change (u "#" ++ w :: ws ++ c :: t ++ rest)
    with (35%N :: w :: ws ++ (c :: t ++ rest)).
  cbn [title_line]. rewrite N.eqb_refl, Hw. cbn [andb].
  rewrite (break_on_intro _ ws (c :: t ++ rest)).
  - apply greedy_space_intro. apply (rest_of_line_intro c t rest); [|exact Hr].
    constructor.
    + intros ->. discriminate Hc.
    + apply Forall_forall. intros x Hx.
      rewrite forallb_forall in Ht. specialize (Ht x Hx).
      apply N.eqb_neq. destruct (x =? 10)%N; [discriminate Ht|reflexivity].
  - apply Forall_forall. intros x Hx.
    rewrite forallb_forall in Hws. rewrite (Hws x Hx). reflexivity.
  - rewrite Hc. reflexivity.
Qed.

Lemma title_line_unheaded c s :
  (c =? 35)%N = false -> title_line (c :: s) = None.
Proof.
  intros H. destruct s as [|w s]; cbn [title_line]; [reflexivity|].
  rewrite H. reflexivity.
Qed.

(** Inside a line the search goes on to the next line. *)
Lemma search_title_inside l X :
  forallb (fun c => negb (c =? 10)%N) l = true ->
  search_title false (l ++ LF ++ X) = search_title true X.
Proof.
  induction l as [|c l IH]; intros H; [reflexivity|].
  cbn [forallb] in H. apply andb_prop in H. destruct H as [Hc Hl].
  cbn [app search_title].
  destruct (c =? 10)%N; [discriminate Hc|]. apply IH, Hl.
Qed.

Lemma search_title_inside_last l :
  forallb (fun c => negb (c =? 10)%N) l = true ->
  search_title false l = None.
Proof.
  induction l as [|c l IH]; intros H; [reflexivity|].
  cbn [forallb] in H. apply andb_prop in H. destruct H as [Hc Hl].
  cbn [search_title].
  destruct (c =? 10)%N; [discriminate Hc|]. apply IH, Hl.
Qed.

Lemma unheaded_cons c l :
  unheaded (c :: l) = true ->
  (c =? 35)%N = false /\ (c =? 10)%N = false
  /\ forallb (fun c => negb (c =? 10)%N) l = true.
Proof.
  unfold unheaded. cbn [forallb]. intros H.
  apply andb_prop in H. destruct H as [Hh H].
  apply andb_prop in H. destruct H as [Hc Hl].
  change (starts_with (u "#") (c :: l)) with ((35 =? c)%N && true) in Hh.
  rewrite N.eqb_sym. split; [|split].
  - destruct (35 =? c)%N; [discriminate Hh|reflexivity].
  - destruct (c =? 10)%N; [discriminate Hc|reflexivity].
  - exact Hl.
Qed.

(** A line that does not start with a hash sign is passed over. *)
Lemma search_title_unheaded l X :
  unheaded l = true ->
  search_title true (l ++ LF ++ X) = search_title true X.
Proof.
  intros H. destruct l as [|c l].
  - change ([] ++ LF ++ X) with (10%N :: X). cbn [search_title].
    rewrite title_line_unheaded by reflexivity. reflexivity.
  - destruct (unheaded_cons c l H) as (Hh & Hc & Hl).
    cbn [app search_title]. rewrite (title_line_unheaded c _ Hh), Hc.
    apply search_title_inside, Hl.
Qed.

Lemma search_title_unlines ls X :
  forallb unheaded ls = true ->
  search_title true (unlines ls ++ X) = search_title true X.
Proof.
  unfold unlines.
  induction ls as [|l ls IH]; intros H; [reflexivity|].
  cbn [forallb] in H. apply andb_prop in H. destruct H as [Hl Hls].
  cbn [map List.concat]. rewrite <- !app_assoc.
  rewrite (search_title_unheaded l _ Hl). apply IH, Hls.
Qed.

(** X2: when the first line that starts with a hash sign is a hash sign,
    white space and a text that starts with a visible character, the title
    is that text up to the end of its line. *)
Theorem title_of_first_heading ls w ws c t rest :
  forallb unheaded ls = true ->
  is_space w = true ->
  forallb is_space ws = true ->
  is_space c = false ->
  forallb (fun x => negb (x =? 10)%N) t = true ->
  match rest with [] => True | x :: _ => x = 10%N end ->
  title_of (unlines ls ++ u "#" ++ w :: ws ++ c :: t ++ rest) = c :: t.
Proof.
  intros Hls Hw Hws Hc Ht Hr. unfold title_of.
  rewrite (search_title_unlines ls _ Hls).
  pose proof (title_line_intro w ws c t rest Hw Hws Hc Ht Hr) as T.
  change (u "#" ++ w :: ws ++ c :: t ++ rest)
    with (35%N :: w :: ws ++ c :: t ++ rest) in T |- *.
  cbn [search_title]. rewrite T. reflexivity.
Qed.

Lemma title_of_first_heading_witness :
  title_of
    (unlines [u "intro"; []] ++ u "#" ++ 32%N :: [] ++ 72%N :: u "i!"
       ++ LF ++ u "# Second")
  = 72%N :: u "i!".
Proof.
  apply (title_of_first_heading [u "intro"; []] 32%N [] 72%N (u "i!"));
    reflexivity.
Defined.

(** X3: when no line starts with a hash sign, the title is the default
    one. *)
Theorem title_of_without_heading ls l :
  forallb unheaded ls = true ->
  unheaded l = true ->
  title_of (unlines ls ++ l) = default_title.
Proof.
  intros Hls Hl. unfold title_of.
  rewrite (search_title_unlines ls _ Hls).
  destruct l as [|c l]; [reflexivity|].
  destruct (unheaded_cons c l Hl) as (Hh & Hc & Hp).
  cbn [search_title]. rewrite (title_line_unheaded c _ Hh), Hc.
  rewrite (search_title_inside_last l Hp). reflexivity.
Qed.

Lemma title_of_without_heading_witness :
  title_of (unlines [u "one"; u " # two"] ++ u "three") = default_title.
Proof.
  apply (title_of_without_heading [u "one"; u " # two"] (u "three"));
    reflexivity.
Defined.

(** ** The title field of the assembled document *)

Lemma before_first_closing t r :
  forallb (fun c => negb (c =? 60)%N) t = true ->
  before_first (u "</title>") (t ++ u "</title>" ++ r) = Some t.
Proof.
  induction t as [|c t IH]; intros H; [reflexivity|].
  cbn [forallb] in H. apply andb_prop in H. destruct H as [Hc Ht].
  cbn [app before_first].
  change (starts_with (u "</title>") (c :: ?x))
    with ((60 =? c)%N && starts_with (u "/title>") x).
  rewrite N.eqb_sym.
  destruct (c =? 60)%N; [discriminate Hc|]. cbn [andb].
  rewrite (IH Ht). reflexivity.
Qed.

(** X1: [build_full_html] puts the title into the title field of the
    document, for every title without the sign [<]. *)
Theorem build_full_html_title_field css body title :
  forallb (fun c => negb (c =? 60)%N) title = true ->
  title_field (build_full_html css body title) = Some title.
Proof.
  intros H. unfold title_field.
  assert (E : exists r,
             after_first (u "<title>") (build_full_html css body title)
             = Some ((title ++ u "</title>" ++ LF) ++ r)).
  { eexists. vm_compute. reflexivity. }
  destruct E as (r & ->). rewrite <- app_assoc.
  apply (before_first_closing title (LF ++ r)), H.
Qed.

Lemma build_full_html_title_field_witness :
  title_field (build_full_html (u "p { }") (u "<p>x</p>") (u "Hi"))
  = Some (u "Hi").
Proof.
  apply (build_full_html_title_field (u "p { }") (u "<p>x</p>") (u "Hi")).
  reflexivity.
Defined.

(** ** Placeholder scanning and image acquisition: lemmas *)

Lemma chosen_all (f : Match -> text) ms :
  chosen ms (map (fun m => Some (f m)) ms)
  = map (fun m => (span_start m, span_end m, f m)) ms.
Proof. induction ms as [|m ms IH]; simpl; [|rewrite IH]; reflexivity. Qed.

Section PipelineLemmas.

Variable cfg : Config.
Variable time_ms : nat -> N.
Variable joinpath : text -> text -> text.
Variable guess_type : text -> option text.

Lemma generate_image_from_prompt_without_client k fs prompt output_path :
  client cfg = None ->
  generate_image_from_prompt cfg k fs prompt output_path = (false, fs).
Proof. intros H. unfold generate_image_from_prompt. rewrite H. reflexivity. Qed.

Lemma image_replacements_without_client assets_dir :
  client cfg = None ->
  forall ms i fs,
    image_replacements cfg time_ms joinpath guess_type assets_dir i fs ms
    = Some (chosen ms
              (map (fun m => Some (placeholder_reference (group 1 m))) ms),
            fs).
Proof.
  intros Hc. induction ms as [|m ms IH]; intros i fs;
    cbn [image_replacements map chosen]; [reflexivity|].
  rewrite generate_image_from_prompt_without_client by exact Hc.
  rewrite IH. reflexivity.
Qed.


Lemma image_to_base64_data fs image_path uri :
  image_to_base64 guess_type fs image_path = Some uri ->
  exists mime_type d,
    file_bytes fs image_path = Some d
    /\ uri = u "data:" ++ mime_type ++ u ";base64," ++ b64encode d.
Proof.
  unfold image_to_base64.
  destruct (file_bytes fs image_path) as [d|]; [|discriminate].
  intros H; injection H as <-. do 2 eexists; split; reflexivity.
Qed.



End PipelineLemmas.

(** ** Placeholder scanning and image acquisition: properties *)

Lemma placeholder_reference_written desc :
  placeholder_reference desc = placehold_co_reference desc.
Proof.
  unfold placeholder_reference, image_reference, placehold_co_reference.
  do 2 f_equal.
Qed.

(** C4: when the client is absent, [process_images] returns the content in
    which every placeholder [![Image](description)] is replaced, where it
    stands, by
    [![description](https://placehold.co/800x400/FFF9E6/FF9E66.png?text=description)],
    the reference to the placeholder image with the description as alt
    text and as query text, and everything else is unchanged; no file is
    written. *)
Theorem process_images_without_client
    cfg time_ms joinpath guess_type fs content assets_dir :
  client cfg = None ->
  exists out,
    process_images cfg time_ms joinpath guess_type fs content assets_dir
    = Some (out, fs)
    /\ out
       = splice 0 content
           (map (fun m =>
                   (span_start m, span_end m,
                    u "![" ++ group 1 m
                      ++ u "](https://placehold.co/800x400/FFF9E6/FF9E66.png?text="
                      ++ group 1 m ++ u ")"))
              (finditer image_marker content))
    /\ Rewrites image_marker
         (fun gs d =>
            d = Some
                  (u "![" ++ nth 0 gs []
                     ++ u "](https://placehold.co/800x400/FFF9E6/FF9E66.png?text="
                     ++ nth 0 gs [] ++ u ")"))
         content out.
Proof.
  intros Hc. unfold process_images.
  rewrite image_replacements_without_client by exact Hc.
  eexists; split; [reflexivity|].
  assert (O : ordered 0 (List.length content)
                (chosen (finditer image_marker content)
                   (map (fun m => Some (placeholder_reference (group 1 m)))
                      (finditer image_marker content)))).
  { apply chosen_ordered.
    apply (finditer_spans_ordered image_marker image_marker_ok content 0). }
  rewrite (apply_replacements_splice _ _ O).
  split.
  - rewrite chosen_all. apply (f_equal (splice 0 content)).
    apply map_ext. intros m.
    rewrite placeholder_reference_written. reflexivity.
  - apply (splice_rewrites image_marker _ image_marker_ok).
    unfold finditer.
    induction (finditer_from image_marker 0 0 content) as [|m ms IH];
      cbn [map]; constructor; [|exact IH].
    rewrite placeholder_reference_written. reflexivity.
Qed.

Lemma process_images_without_client_witness :
  process_images config_without_client (fun _ => 0%N) slash (fun _ => None)
    no_files
    (u "See ![Image](a cat) and ![IMAGE](dog), not ![alt](x.png)")
    (u "assets")
  = Some
      (u "See ![a cat](https://placehold.co/800x400/FFF9E6/FF9E66.png?text=a cat) and ![dog](https://placehold.co/800x400/FFF9E6/FF9E66.png?text=dog), not ![alt](x.png)",
       no_files)
  /\ Rewrites image_marker
       (fun gs d =>
          d = Some
                (u "![" ++ nth 0 gs []
                   ++ u "](https://placehold.co/800x400/FFF9E6/FF9E66.png?text="
                   ++ nth 0 gs [] ++ u ")"))
       (u "See ![Image](a cat) and ![IMAGE](dog), not ![alt](x.png)")
       (u "See ![a cat](https://placehold.co/800x400/FFF9E6/FF9E66.png?text=a cat) and ![dog](https://placehold.co/800x400/FFF9E6/FF9E66.png?text=dog), not ![alt](x.png)").
Proof.
  destruct (process_images_without_client config_without_client
              (fun _ => 0%N) slash (fun _ => None) no_files
              (u "See ![Image](a cat) and ![IMAGE](dog), not ![alt](x.png)")
              (u "assets") eq_refl) as (out & E & S & W).
  assert (O : out
              = u "See ![a cat](https://placehold.co/800x400/FFF9E6/FF9E66.png?text=a cat) and ![dog](https://placehold.co/800x400/FFF9E6/FF9E66.png?text=dog), not ![alt](x.png)").
  { rewrite S. vm_compute. reflexivity. }
  rewrite O in E, W. split; [exact E|exact W].
Defined.


(** X8: the replacements of both scans, made from the last span to the
    first as the code makes them, give the text with the spans replaced in
    reading order. *)
Theorem replacements_in_reading_order content ds :
  apply_replacements content (chosen (finditer image_marker content) ds)
  = splice 0 content (chosen (finditer image_marker content) ds)
  /\ apply_replacements content (chosen (finditer local_image content) ds)
     = splice 0 content (chosen (finditer local_image content) ds).
Proof.
  split; apply apply_replacements_splice, chosen_ordered.
  - apply (finditer_spans_ordered image_marker image_marker_ok content 0).
  - apply (finditer_spans_ordered local_image local_image_ok content 0).
Qed.

(** Made from the first span to the last, the same replacements give
    another text: the later spans no longer fit. *)
Lemma replacements_from_the_first_differ :
  apply_replacements (u "![Image](a) ![Image](b)")
    [(0, 11, u "A"); (12, 23, u "B")]
  = u "A B"
  /\ fold_left slice_assign [(0, 11, u "A"); (12, 23, u "B")]
       (u "![Image](a) ![Image](b)")
     = u "A ![Image](bB".
Proof. split; reflexivity. Qed.

(** *** The placeholder pattern in a text that was put together *)

Lemma match_literal_ignorecase_app literal : forall p s,
  match_literal_ignorecase literal (p ++ s)
  = match literal_residue literal p with
    | Matched rest => Some (rest ++ s)
    | Mismatch => None
    | Pending literal' => match_literal_ignorecase literal' s
    end.
Proof.
  induction literal as [|q literal IH]; intros p s; [reflexivity|].
  destruct p as [|c p]; [reflexivity|]. simpl.
  destruct (ignorecase_eq q c); [apply IH|reflexivity].
Qed.

Lemma literal_residue_matched literal : forall p rest,
  plain_literal literal ->
  literal_residue literal p = Matched rest ->
  exists l,
    p = l ++ rest /\ Forall (fun c => plain c = true) l
    /\ List.length l = List.length literal.
Proof.
  induction literal as [|q literal IH]; intros p rest Hl H; simpl in H.
  - injection H as <-. exists []. repeat split; constructor.
  - destruct p as [|c p]; [discriminate|].
    destruct (ignorecase_eq q c) eqn:E; [|discriminate].
    inversion Hl as [|? ? Hq Hl']; subst.
    destruct (IH p rest Hl' H) as (l & -> & Hp & Hlen).
    exists (c :: l). repeat split; [constructor; auto|simpl; lia].
Qed.

Lemma literal_residue_pending literal : forall p literal',
  plain_literal literal ->
  literal_residue literal p = Pending literal' ->
  Forall (fun c => plain c = true) p
  /\ literal' = skipn (List.length p) literal
  /\ List.length p < List.length literal.
Proof.
  induction literal as [|q literal IH]; intros p literal' Hl H; simpl in H;
    [discriminate|].
  destruct p as [|c p].
  - injection H as <-. repeat split; [constructor|simpl; lia].
  - destruct (ignorecase_eq q c) eqn:E; [|discriminate].
    inversion Hl as [|? ? Hq Hl']; subst.
    destruct (IH p literal' Hl' H) as (Hp & -> & Hlen).
    repeat split; [constructor; auto|simpl; lia].
Qed.

Lemma marker_literal_plain : plain_literal marker_literal.
Proof.
  unfold plain_literal, marker_literal.
  repeat constructor; intros c H; unfold plain;
    destruct (N.eqb_spec c 41) as [->|_]; try discriminate H;
    destruct (N.eqb_spec c 10) as [->|_]; try discriminate H;
    reflexivity.
Qed.

Lemma plain_app_last t0 :
  forallb plain (t0 ++ [41%N]) = false.
Proof. induction t0 as [|c t0 IH]; simpl; [|rewrite IH, andb_false_r]; reflexivity. Qed.

Lemma forallb_plain_Forall p :
  forallb plain p = true <-> Forall (fun c => plain c = true) p.
Proof.
  rewrite forallb_forall, Forall_forall. tauto.
Qed.

(** A text that ends with the closing parenthesis decides the placeholder
    pattern at its head, whatever follows it. *)
Lemma image_marker_closed t0 s :
  image_marker ((t0 ++ [41%N]) ++ s) = image_marker (t0 ++ [41%N]).
Proof.
  unfold image_marker. fold marker_literal.
  rewrite <- (app_nil_r (t0 ++ [41%N])) at 2.
  rewrite !match_literal_ignorecase_app.
  destruct (literal_residue marker_literal (t0 ++ [41%N])) as [rest| |l']
    eqn:E.
  - destruct (forallb plain rest) eqn:P.
    + exfalso.
      destruct (literal_residue_matched _ _ _ marker_literal_plain E)
        as (l & Ht & Hl & _).
      assert (Hall : forallb plain (l ++ rest) = true).
      { rewrite forallb_app, P, andb_true_r.
        apply forallb_plain_Forall; exact Hl. }
      rewrite <- Ht, plain_app_last in Hall. discriminate.
    + rewrite app_nil_r, lazy_until_paren_decided by exact P. reflexivity.
  - reflexivity.
  - exfalso.
    destruct (literal_residue_pending _ _ _ marker_literal_plain E)
      as (Hp & _ & _).
    apply forallb_plain_Forall in Hp. rewrite plain_app_last in Hp.
    discriminate.
Qed.

Lemma has_match_app_closed t0 s :
  has_match image_marker (t0 ++ [41%N]) = false ->
  has_match image_marker s = false ->
  has_match image_marker ((t0 ++ [41%N]) ++ s) = false.
Proof.
  induction t0 as [|c t0 IH]; intros Ht Hs.
  - change (has_match image_marker (41%N :: s) = false).
    cbn [has_match]. change (41%N :: s) with (([] ++ [41%N]) ++ s).
    rewrite image_marker_closed. cbn [has_match app] in Ht |- *.
    destruct (image_marker [41%N]); [discriminate Ht|exact Hs].
  - change (has_match image_marker (c :: (t0 ++ [41%N]) ++ s) = false).
    cbn [has_match].
    change (c :: (t0 ++ [41%N]) ++ s) with (((c :: t0) ++ [41%N]) ++ s).
    rewrite image_marker_closed.
    change (has_match image_marker (c :: t0 ++ [41%N]) = false) in Ht.
    cbn [has_match] in Ht.
    change ((c :: t0) ++ [41%N]) with (c :: t0 ++ [41%N]).
    destruct (image_marker (c :: t0 ++ [41%N])); [discriminate|].
    apply IH; assumption.
Qed.

Lemma marker_literal_tail k :
  1 <= k < 9 ->
  exists q literal',
    skipn k marker_literal = q :: literal'
    /\ ignorecase_eq q 33 = false.
Proof.
  intros [H1 H2].
  do 9 (destruct k as [|k]; [try lia; eexists; eexists; split; reflexivity|]).
  lia.
Qed.

(** A match of the placeholder pattern is found by the lazy scan from its
    own head too: no line feed or parenthesis stands before its end. *)
Lemma image_marker_lazy s gs n :
  image_marker s = Some (gs, n) ->
  exists d, lazy_until_paren s = Some d.
Proof.
  intros H. apply image_marker_inv in H.
  destruct H as (l & desc & rest & -> & Hl & Hd & _ & _).
  exists (l ++ desc). rewrite app_assoc. apply lazy_until_paren_intro.
  apply Forall_app; split; [|exact Hd].
  pose proof marker_literal_plain as P. unfold plain_literal in P.
  revert P. induction Hl as [|q c lit l Hqc _ IH]; intros P; [constructor|].
  inversion P; subst. constructor; auto.
Qed.

Lemma ignorecase_eq_exclamation c : ignorecase_eq 33 c = true -> c = 33%N.
Proof.
  unfold ignorecase_eq. change (ascii_lower 33) with 33%N.
  change (33 =? 105)%N with false. rewrite andb_false_l, orb_false_r.
  unfold ascii_lower. destruct ((65 <=? c) && (c <=? 90))%N eqn:E;
    intros H; apply N.eqb_eq in H; [|auto].
  apply andb_prop in E; destruct E as [E1 _]. apply N.leb_le in E1. lia.
Qed.

Lemma image_marker_head s gs n :
  image_marker s = Some (gs, n) -> exists s', s = 33%N :: s'.
Proof.
  intros H. apply image_marker_inv in H.
  destruct H as (l & desc & rest & -> & Hl & _).
  unfold marker_literal in Hl. inversion Hl as [|q c lit l' Hqc Hl']; subst.
  apply ignorecase_eq_exclamation in Hqc; subst c.
  exists (l' ++ desc ++ 41%N :: rest). reflexivity.
Qed.

(** A text that does not match the placeholder pattern still does not when
    a placeholder further on in it is replaced by a text that starts with
    an exclamation mark. *)
Lemma image_marker_stable p s r out gs n :
  p <> [] ->
  image_marker s = Some (gs, n) ->
  image_marker (p ++ s) = None ->
  image_marker (p ++ 33%N :: r ++ out) = None.
Proof.
  intros Hp Hs. unfold image_marker at 1 2. fold marker_literal.
  rewrite !match_literal_ignorecase_app.
  destruct (literal_residue marker_literal p) as [rest| |l'] eqn:E.
  - destruct (forallb plain rest) eqn:P.
    + apply forallb_plain_Forall in P.
      rewrite (lazy_until_paren_through rest s P).
      destruct (image_marker_lazy _ _ _ Hs) as (d & ->). discriminate.
    + rewrite !lazy_until_paren_decided by exact P. auto.
  - reflexivity.
  - intros _.
    destruct (literal_residue_pending _ _ _ marker_literal_plain E)
      as (_ & -> & Hlen).
    destruct (marker_literal_tail (List.length p)) as (q & lit & -> & Hq).
    { destruct p; [contradiction|]. simpl in *.
      change (List.length marker_literal) with 9 in Hlen. lia. }
    simpl. rewrite Hq. reflexivity.
Qed.

Lemma rewrites_stable m R s out :
  stable m ->
  Rewrites m R s out ->
  (forall gs r, R gs (Some r) -> exists r', r = 33%N :: r') ->
  forall p,
    p <> [] ->
    m (p ++ s) = None ->
    m (p ++ out) = None.
Proof.
  intros Hst H HR.
  induction H as [|c s out Hm H IH|s gs n out Hm Hk H IH
                 |s gs n r out Hm Hr H IH]; intros p Hp Hps.
  - exact Hps.
  - change (p ++ c :: out) with (p ++ [c] ++ out). rewrite app_assoc.
    apply IH; [destruct p; discriminate|].
    rewrite <- app_assoc. exact Hps.
  - rewrite app_assoc. apply IH; [destruct p; [contradiction|discriminate]|].
    rewrite <- app_assoc, firstn_skipn. exact Hps.
  - destruct (HR _ _ Hr) as (r' & ->).
    apply (Hst p s gs n (r' ++ out) Hp Hm Hps).
Qed.

Lemma image_marker_is_stable : stable image_marker.
Proof.
  intros p s gs n t Hp Hs H.
  rewrite <- (app_nil_r t). apply (image_marker_stable p s t [] gs n); auto.
Qed.

(** Where no reference put in holds the placeholder syntax, the rewritten
    text holds none. *)
Lemma rewrites_no_marker R s out :
  Rewrites image_marker R s out ->
  (forall gs d,
      R gs d ->
      exists t0,
        d = Some (33%N :: t0 ++ [41%N])
        /\ has_match image_marker (33%N :: t0 ++ [41%N]) = false) ->
  has_match image_marker out = false.
Proof.
  intros H HR.
  assert (Hhead : forall gs r, R gs (Some r) -> exists r', r = 33%N :: r').
  { intros gs r Hr. destruct (HR _ _ Hr) as (t0 & E & _).
    injection E as ->. eauto. }
  induction H as [|c s out Hm H IH|s gs n out Hm Hk H IH
                 |s gs n r out Hm Hr H IH].
  - reflexivity.
  - cbn [has_match]. change (c :: out) with ([c] ++ out).
    rewrite (rewrites_stable image_marker R s out image_marker_is_stable
               H Hhead [c])
      by (try discriminate; exact Hm).
    exact IH.
  - destruct (HR _ _ Hk) as (t0 & E & _). discriminate.
  - destruct (HR _ _ Hr) as (t0 & E & Hq). injection E as ->.
    apply (has_match_app_closed (33%N :: t0) out Hq IH).
Qed.

Lemma image_reference_shape alt target :
  exists t0, image_reference alt target = 33%N :: t0 ++ [41%N].
Proof.
  exists (91%N :: alt ++ [93; 40]%N ++ target).
  unfold image_reference.
  change (u "![") with [33; 91]%N. change (u "](") with [93; 40]%N.
  change (u ")") with [41%N]. simpl. rewrite <- !app_assoc. reflexivity.
Qed.





(** With a client that answers, the placeholder becomes the embedded image
    and the image file stays in the assets directory. *)
Lemma process_images_embeds_generated_image :
  option_map
    (fun r =>
       (fst r, file_bytes (snd r) (u "assets/gen_1700000000000.png")))
    (process_images (config_with_resolution (u "2k"))
       (fun _ => 1700000000000%N)
       (fun base name => base ++ u "/" ++ name)
       (fun _ => Some (u "image/png"))
       no_files (u "See ![Image](a cat) here") (u "assets"))
  = Some
      (u "See ![a cat](data:image/png;base64,R2VuZXJhdGUgYW4gaW1hZ2Ugb2Y6IGEgY2F0LCBmbGF0) here",
       Some (u "Generate an image of: a cat, flat")).
Proof. vm_compute. reflexivity. Qed.

(** *** The local image pattern in a text that was put together *)

Lemma starts_with_more p s t :
  starts_with p s = true -> starts_with p (s ++ t) = true.
Proof.
  revert s; induction p as [|x p IH]; intros [|y s]; simpl; auto;
    try discriminate.
  intros H; apply andb_prop in H; destruct H as [-> H]. simpl. auto.
Qed.


















Lemma list3_ind {A} (P : list A -> Prop) :
  P [] -> (forall a, P [a]) -> (forall a b, P [a; b]) ->
  (forall a b c l, P l -> P (a :: b :: c :: l)) ->
  forall l, P l.
Proof.
  intros H0 H1 H2 H3. fix IH 1.
  intros [|a [|b [|c l]]];
    [exact H0 | exact (H1 a) | exact (H2 a b) | exact (H3 a b c l (IH l))].
Qed.



Section EmbedderLemmas.

Variable joinpath : text -> text -> text.
Variable guess_type : text -> option text.
Variable fs : FileSystem.
Variable base_dir : text.




Lemma local_replacements_returned ms rs log :
  local_replacements joinpath guess_type fs base_dir ms = Some (rs, log) ->
  readable joinpath fs base_dir ms.
Proof.
  revert rs log. induction ms as [|m ms IH]; intros rs log H;
    [constructor|].
  cbn [local_replacements] in H.
  destruct (path_exists fs (joinpath base_dir (group 2 m)))
    as [[|]|] eqn:X; [| |discriminate].
  - destruct (image_to_base64 guess_type fs _) as [uri|] eqn:U;
      [|discriminate].
    destruct (local_replacements joinpath guess_type fs base_dir ms)
      as [[rs' log']|]; [|discriminate].
    constructor; [|apply (IH rs' log' eq_refl)].
    exists true. split; [exact X|].
    intros _. apply image_to_base64_data in U.
    destruct U as (mime & d & Hd & _). eauto.
  - destruct (local_replacements joinpath guess_type fs base_dir ms)
      as [[rs' log']|]; [|discriminate].
    constructor; [|apply (IH rs' log' eq_refl)].
    exists false. split; [exact X|discriminate].
Qed.




End EmbedderLemmas.

(** ** The Local Image Embedder: properties *)







(** * Further properties of the code *)

(** ** Base64 and the data URI *)

Lemma b64_index_char i :
  (i < 64)%N -> b64_index (b64_char i) = Some i.
Proof.
  intros H.
  assert (A : forallb
                (fun j => match b64_index (b64_char j) with
                          | Some k => (k =? j)%N
                          | None => false
                          end)
                (map N.of_nat (seq 0 64)) = true) by (vm_compute; reflexivity).
  rewrite forallb_forall in A.
  specialize (A i).
  destruct (b64_index (b64_char i)) as [k|].
  - assert (E : (k =? i)%N = true).
    { apply A. apply in_map_iff. exists (N.to_nat i). split; [lia|].
      apply in_seq. lia. }
    apply N.eqb_eq in E. congruence.
  - assert (E : false = true).
    { apply A. apply in_map_iff. exists (N.to_nat i). split; [lia|].
      apply in_seq. lia. }
    discriminate E.
Qed.

Lemma b64_char_not_pad i : (i < 64)%N -> (b64_char i =? 61)%N = false.
Proof.
  intros H.
  assert (A : forallb (fun j => negb (b64_char j =? 61)%N)
                (map N.of_nat (seq 0 64)) = true) by (vm_compute; reflexivity).
  rewrite forallb_forall in A.
  apply negb_true_iff. apply A. apply in_map_iff.
  exists (N.to_nat i). split; [lia|]. apply in_seq. lia.
Qed.

(** Decoding what [b64encode] gives returns the bytes. *)
Lemma b64decode_b64encode d :
  Forall (fun b => (b < 256)%N) d -> b64decode (b64encode d) = Some d.
Proof.
  induction d as [|a|a b|a b c d IH] using list3_ind; intros H.
  - reflexivity.
  - inversion H as [|? ? Ha _]; subst.
    cbn [b64encode b64decode].
    rewrite !b64_index_char by euclid.
    rewrite N.eqb_refl. cbn. f_equal. f_equal. euclid.
  - inversion H as [|? ? Ha H']; subst. inversion H' as [|? ? Hb _]; subst.
    cbn [b64encode b64decode].
    rewrite !b64_index_char by euclid.
    rewrite b64_char_not_pad by euclid.
    rewrite N.eqb_refl. cbn. f_equal. f_equal; [euclid|f_equal; euclid].
  - inversion H as [|? ? Ha H']; subst. inversion H' as [|? ? Hb H'']; subst.
    inversion H'' as [|? ? Hc Hd]; subst.
    cbn [b64encode app b64decode].
    rewrite !b64_index_char by euclid.
    rewrite !b64_char_not_pad by euclid.
    rewrite (IH Hd). cbn. f_equal.
    f_equal; [euclid|f_equal; [euclid|f_equal; euclid]].
Qed.

Lemma length_b64encode d :
  List.length (b64encode d) = 4 * ((List.length d + 2) / 3).
Proof.
  induction d as [|a|a b|a b c d IH] using list3_ind; try reflexivity.
  cbn [b64encode app List.length]. rewrite IH.
  replace (S (S (S (List.length d))) + 2) with (1 * 3 + (List.length d + 2))
    by lia.
  rewrite Nat.div_add_l by discriminate. lia.
Qed.

(** X9: the data URI that [image_to_base64] returns holds the bytes of
    the file: its payload decodes to them, and has four code points for
    every three bytes; the MIME type is the one guessed from the path, or
    [image/png] when none or an empty one is guessed. *)
Theorem image_to_base64_round_trip guess_type fs image_path d :
  file_bytes fs image_path = Some d ->
  Forall (fun b => (b < 256)%N) d ->
  exists mime payload,
    image_to_base64 guess_type fs image_path
    = Some (u "data:" ++ mime ++ u ";base64," ++ payload)
    /\ b64decode payload = Some d
    /\ List.length payload = 4 * ((List.length d + 2) / 3)
    /\ ((guess_type image_path = None \/ guess_type image_path = Some []) ->
        mime = u "image/png")
    /\ (forall c t, guess_type image_path = Some (c :: t) -> mime = c :: t).
Proof.
  intros Hd Hb. unfold image_to_base64. rewrite Hd.
  do 2 eexists. split; [reflexivity|].
  split; [apply b64decode_b64encode, Hb|].
  split; [apply length_b64encode|]. split.
  - intros [-> | ->]; reflexivity.
  - intros c t ->. reflexivity.
Qed.

Lemma image_to_base64_round_trip_witness :
  exists mime payload,
    image_to_base64 (fun _ => None) one_image_file (u "post/a.png")
    = Some (u "data:" ++ mime ++ u ";base64," ++ payload)
    /\ b64decode payload = Some (u "Man")
    /\ List.length payload = 4 * ((List.length (u "Man") + 2) / 3)
    /\ (((fun _ : text => @None text) (u "post/a.png") = None
         \/ (fun _ : text => @None text) (u "post/a.png") = Some []) ->
        mime = u "image/png")
    /\ (forall c t,
          (fun _ : text => @None text) (u "post/a.png") = Some (c :: t) ->
          mime = c :: t).
Proof.
  apply (image_to_base64_round_trip (fun _ => None) one_image_file
           (u "post/a.png") (u "Man"));
    [reflexivity|repeat (constructor; [reflexivity|]); constructor].
Defined.

(** ** Prompt expansion and image generation *)

Lemma lstrip_head s :
  match lstrip s with [] => True | c :: _ => is_space c = false end.
Proof.
  induction s as [|c s IH]; cbn [lstrip]; [exact I|].
  destruct (is_space c) eqn:E; [exact IH|exact E].
Qed.

Lemma lstrip_suffix s : exists p, s = p ++ lstrip s.
Proof.
  induction s as [|c s IH]; cbn [lstrip]; [exists []; reflexivity|].
  destruct (is_space c).
  - destruct IH as (p & E). exists (c :: p). cbn [app]. rewrite <- E.
    reflexivity.
  - exists []. reflexivity.
Qed.

(** [str.strip()] leaves no white space at either end. *)
Lemma strip_ends s :
  match strip s with [] => True | c :: _ => is_space c = false end
  /\ match rev (strip s) with [] => True | c :: _ => is_space c = false end.
Proof.
  unfold strip. rewrite rev_involutive. split; [|apply lstrip_head].
  destruct (lstrip_suffix (rev (lstrip s))) as (p & E).
  pose proof (lstrip_head s) as H.
  destruct (lstrip (rev (lstrip s))) as [|c t] eqn:L; [exact I|].
  apply (f_equal (@rev N)) in E. rewrite rev_involutive, rev_app_distr in E.
  destruct (rev (c :: t)) as [|c' t'] eqn:R.
  - apply (f_equal (@List.length N)) in R. rewrite length_rev in R.
    discriminate R.
  - rewrite E in H. exact H.
Qed.

(** X15: when the call answers with a text, [expand_prompt] returns that
    text stripped, whatever it is: the result has no white space at either
    end, and it is empty when the answer is blank. *)
Theorem expand_prompt_strips_answer cfg c k description response t :
  client cfg = Some c ->
  generate_content c k
    {| req_model := TEXT_MODEL_NAME cfg;
       req_contents :=
         sys_prompt ++ ([10; 10; 21407; 22987; 25551; 36848]%N ++ u ": ")
           ++ description;
       req_config := None |}
  = Some response ->
  response_text response = Some t ->
  expand_prompt cfg k description = strip t
  /\ match strip t with [] => True | x :: _ => is_space x = false end
  /\ match rev (strip t) with [] => True | x :: _ => is_space x = false end
  /\ (forallb is_space t = true -> expand_prompt cfg k description = []).
Proof.
  intros Hc Hg Ht.
  assert (E : expand_prompt cfg k description = strip t)
    by (unfold expand_prompt; rewrite Hc, Hg, Ht; reflexivity).
  split; [exact E|]. destruct (strip_ends t) as [H1 H2].
  split; [exact H1|]. split; [exact H2|].
  intros Hb. rewrite E. unfold strip.
  assert (L : lstrip t = []).
  { clear - Hb. induction t as [|x t IH]; [reflexivity|].
    cbn [forallb] in Hb. apply andb_prop in Hb. destruct Hb as [Hx Hb].
    cbn [lstrip]. rewrite Hx. apply IH, Hb. }
  rewrite L. reflexivity.
Qed.

Lemma expand_prompt_strips_answer_witness :
  expand_prompt
    {| IMG_MODEL_NAME := u "gemini-3-pro-image-preview";
       TEXT_MODEL_NAME := u "gemini-3-pro-preview";
       IMAGE_RESOLUTION := u "2k";
       ENABLE_SEARCH := false;
       client :=
         Some {| generate_content :=
                   fun _ _ =>
                     Some {| response_text := Some (u "  a cat " ++ LF);
                             candidates := [] |} |} |}
    0 (u "cat")
  = strip (u "  a cat " ++ LF)
  /\ match strip (u "  a cat " ++ LF) with
     | [] => True
     | x :: _ => is_space x = false
     end
  /\ match rev (strip (u "  a cat " ++ LF)) with
     | [] => True
     | x :: _ => is_space x = false
     end
  /\ (forallb is_space (u "  a cat " ++ LF) = true ->
      expand_prompt
        {| IMG_MODEL_NAME := u "gemini-3-pro-image-preview";
           TEXT_MODEL_NAME := u "gemini-3-pro-preview";
           IMAGE_RESOLUTION := u "2k";
           ENABLE_SEARCH := false;
           client :=
             Some {| generate_content :=
                       fun _ _ =>
                         Some {| response_text := Some (u "  a cat " ++ LF);
                                 candidates := [] |} |} |}
        0 (u "cat")
      = []).
Proof.
  apply (expand_prompt_strips_answer _
           {| generate_content :=
                fun _ _ =>
                  Some {| response_text := Some (u "  a cat " ++ LF);
                          candidates := [] |} |}
           0 (u "cat")
           {| response_text := Some (u "  a cat " ++ LF); candidates := [] |});
    reflexivity.
Defined.



(** ** The placeholders of [process_images] *)

(** Every match [finditer] yields is a match of the pattern where its
    span starts. *)
Lemma finditer_from_sound m (Hok : matcher_ok m) : forall s pos mt,
  In mt (finditer_from m pos 0 s) ->
  exists k,
    span_start mt = pos + k
    /\ m (skipn k s) = Some (groups mt, span_end mt - span_start mt).
Proof.
  intros s. induction s as [|c s Hm IH|s gs n Hm IH] using (scan_ind m Hok);
    intros pos mt Hin.
  - contradiction.
  - rewrite (finditer_from_copy m c s pos Hm) in Hin.
    destruct (IH (S pos) mt Hin) as (k & E1 & E2).
    exists (S k). split; [lia|exact E2].
  - rewrite (finditer_from_match m s pos gs n Hm (Hok s gs n Hm)) in Hin.
    destruct Hin as [<-|Hin].
    + exists 0. cbn [span_start span_end groups skipn].
      split; [lia|]. replace (pos + n - pos) with n by lia. exact Hm.
    + destruct (IH (pos + n) mt Hin) as (k & E1 & E2).
      exists (n + k). split; [lia|]. rewrite skipn_plus. exact E2.
Qed.

(** X16: the description of a placeholder ends at the first closing
    parenthesis after the marker: it holds no closing parenthesis and no
    line feed, and the match is the nine code points of the marker, in
    any letter case, the description and the closing parenthesis. *)
Theorem placeholder_description_is_plain content m :
  In m (finditer image_marker content) ->
  exists l,
    skipn (span_start m) content
    = l ++ group 1 m ++ u ")" ++ skipn (span_end m) content
    /\ Forall2 (fun p c => ignorecase_eq p c = true) (u "![Image](") l
    /\ forallb plain (group 1 m) = true.
Proof.
  intros Hin. unfold finditer in Hin.
  destruct (finditer_from_sound image_marker image_marker_ok content 0 m Hin)
    as (k & E1 & E2).
  cbn [Nat.add] in E1. rewrite <- E1 in E2.
  apply image_marker_inv in E2.
  destruct E2 as (l & desc & rest & Es & Hl & Hd & Hg & Hn).
  assert (G : group 1 m = desc) by (unfold group; rewrite Hg; reflexivity).
  exists l. rewrite G. split; [|split; [exact Hl|]].
  - rewrite Es. do 2 f_equal. cbn [u map list_ascii_of_string app]. f_equal.
    assert (L : span_end m = span_start m + (span_end m - span_start m))
      by lia.
    rewrite L, skipn_plus, Es, Hn.
    pose proof (marker_literal_length l Hl) as Ll. clear - Ll.
    set (x := l ++ desc ++ [41%N]).
    assert (X : l ++ desc ++ 41%N :: rest = x ++ rest)
      by (unfold x; rewrite <- !app_assoc; reflexivity).
    assert (Lx : 9 + List.length desc + 1 = List.length x)
      by (unfold x; rewrite !length_app; cbn [List.length]; lia).
    rewrite X, Lx, skipn_app, skipn_all, Nat.sub_diag. reflexivity.
  - apply forallb_forall. rewrite Forall_forall in Hd. exact Hd.
Qed.

Lemma placeholder_description_is_plain_witness :
  exists l,
    skipn 4 (u "See ![Image](a (b) c) here")
    = l ++ u "a (b" ++ u ")" ++ skipn 18 (u "See ![Image](a (b) c) here")
    /\ Forall2 (fun p c => ignorecase_eq p c = true) (u "![Image](") l
    /\ forallb plain (u "a (b") = true.
Proof.
  apply (placeholder_description_is_plain (u "See ![Image](a (b) c) here")
           {| span_start := 4; span_end := 18; groups := [u "a (b"] |}).
  vm_compute. left. reflexivity.
Defined.




Lemma own_references_each cfg time_ms joinpath guess_type assets_dir fs R :
  (forall i m,
      R (groups m)
        (Some (own_reference cfg time_ms joinpath guess_type assets_dir
                 fs i m))) ->
  forall ms i,
    Forall2 (fun mt d => R (groups mt) d) ms
      (own_references cfg time_ms joinpath guess_type assets_dir fs i ms).
Proof.
  intros H. induction ms as [|m ms IH]; intros i; constructor; auto.
Qed.


(** Two placeholders in one millisecond share the file name: each embeds
    its own image, and the file keeps the second. *)
Lemma process_images_same_millisecond :
  option_map
    (fun r => (fst r, file_bytes (snd r) (u "assets/gen_7.png")))
    (process_images
       {| IMG_MODEL_NAME := u "gemini-3-pro-image-preview";
          TEXT_MODEL_NAME := u "gemini-3-pro-preview";
          IMAGE_RESOLUTION := u "2k";
          ENABLE_SEARCH := true;
          client := Some numbering_client |}
       (fun _ => 7%N) slash (fun _ => None) no_files
       (u "![Image](a) ![Image](b)") (u "assets"))
  = Some (u "![a](data:image/png;base64,AQ==) ![b](data:image/png;base64,Aw==)",
          Some [3%N]).
Proof. vm_compute. reflexivity. Qed.



(** Where the pattern is nowhere found, [finditer] yields nothing. *)
Lemma finditer_from_none m : forall s pos,
  has_match m s = false -> finditer_from m pos 0 s = [].
Proof.
  induction s as [|c s IH]; intros pos H; [reflexivity|].
  cbn [has_match] in H. cbn [finditer_from].
  destruct (m (c :: s)); [discriminate H|]. apply IH, H.
Qed.

(** X13: a text without placeholder is returned as it is by
    [process_images], which then writes no file, and a text without local
    image reference is returned as it is by [embed_local_images], which
    then logs nothing. *)
Theorem text_without_matches_is_returned
    cfg time_ms joinpath guess_type fs content dir :
  (has_match image_marker content = false ->
   process_images cfg time_ms joinpath guess_type fs content dir
   = Some (content, fs))
  /\ (has_match local_image content = false ->
      embed_local_images joinpath guess_type fs content dir
      = Some (content, [])).
Proof.
  split; intros H.
  - unfold process_images, finditer. rewrite (finditer_from_none _ _ 0 H).
    reflexivity.
  - unfold embed_local_images, finditer. rewrite (finditer_from_none _ _ 0 H).
    reflexivity.
Qed.

(** X14: without a client, [process_images] applied to its own output
    changes nothing, provided the reference put in for each placeholder
    holds no placeholder itself. *)
Theorem process_images_twice_without_client
    cfg time_ms joinpath guess_type fs content assets_dir :
  client cfg = None ->
  forallb
    (fun m =>
       negb (has_match image_marker (placeholder_reference (group 1 m))))
    (finditer image_marker content) = true ->
  exists out,
    process_images cfg time_ms joinpath guess_type fs content assets_dir
    = Some (out, fs)
    /\ process_images cfg time_ms joinpath guess_type fs out assets_dir
       = Some (out, fs).
Proof.
  intros Hc Hq.
  assert (E : process_images cfg time_ms joinpath guess_type fs content
                assets_dir
              = Some (splice 0 content
                        (chosen (finditer image_marker content)
                           (map (fun m =>
                                   Some (placeholder_reference (group 1 m)))
                              (finditer image_marker content))), fs)).
  { unfold process_images.
    rewrite (image_replacements_without_client cfg time_ms joinpath
               guess_type assets_dir Hc).
    rewrite apply_replacements_splice; [reflexivity|].
    apply chosen_ordered.
    apply (finditer_spans_ordered image_marker image_marker_ok content 0). }
  rewrite E. clear E.
  set (out := splice 0 content _).
  exists out. split; [reflexivity|].
  assert (N : has_match image_marker out = false).
  { apply (rewrites_no_marker
             (fun gs d =>
                d = Some (placeholder_reference (nth 0 gs []))
                /\ has_match image_marker
                     (placeholder_reference (nth 0 gs [])) = false)
             content).
    - apply (splice_rewrites image_marker _ image_marker_ok).
      unfold finditer in Hq |- *.
      induction (finditer_from image_marker 0 0 content) as [|m ms IH];
        [constructor|].
      cbn [forallb] in Hq. apply andb_prop in Hq. destruct Hq as [H1 H2].
      cbn [map]. constructor; [|apply IH, H2].
      split; [reflexivity|]. apply negb_true_iff in H1. exact H1.
    - intros gs d [-> Hd].
      destruct (image_reference_shape (nth 0 gs [])
                  (placeholder_url ++ nth 0 gs [])) as (t0 & Et).
      exists t0. unfold placeholder_reference in Hd |- *.
      rewrite <- Et. auto. }
  unfold process_images, finditer.
  rewrite (finditer_from_none _ _ 0 N). reflexivity.
Qed.

Lemma process_images_twice_without_client_witness :
  exists out,
    process_images config_without_client (fun _ => 0%N) slash (fun _ => None)
      no_files (u "See ![Image](a cat) here") (u "assets")
    = Some (out, no_files)
    /\ process_images config_without_client (fun _ => 0%N) slash
         (fun _ => None) no_files out (u "assets")
       = Some (out, no_files).
Proof.
  apply (process_images_twice_without_client config_without_client);
    vm_compute; reflexivity.
Defined.

(** ** The references of [embed_local_images] *)

(** X17: what [embed_local_images] takes for a path is never empty, holds
    no closing parenthesis and does not start with [data:], [http://] or
    [https://]; the alt text holds no closing bracket. *)
Theorem local_image_path_is_local content m :
  In m (finditer local_image content) ->
  exists c t,
    group 2 m = c :: t
    /\ forallb (fun x => negb (x =? 41)%N) (group 2 m) = true
    /\ forallb (fun x => negb (x =? 93)%N) (group 1 m) = true
    /\ not_embedded_or_remote (group 2 m) = true
    /\ skipn (span_start m) content
       = u "![" ++ group 1 m ++ u "](" ++ group 2 m
           ++ u ")" ++ skipn (span_end m) content.
Proof.
  intros Hin. unfold finditer in Hin.
  destruct (finditer_from_sound local_image local_image_ok content 0 m Hin)
    as (k & E1 & E2).
  cbn [Nat.add] in E1. rewrite <- E1 in E2.
  pose proof E2 as E3. apply local_image_inv in E3.
  destruct E3 as (a & p & rest & Es & Ha & Hp & Hne & Hl & Hg & Hn).
  assert (G1 : group 1 m = a) by (unfold group; rewrite Hg; reflexivity).
  assert (G2 : group 2 m = p) by (unfold group; rewrite Hg; reflexivity).
  rewrite G1, G2. destruct p as [|c t]; [contradiction|].
  exists c, t. split; [reflexivity|]. split; [|split; [|split]].
  - apply forallb_forall. rewrite Forall_forall in Hp. intros x Hx.
    rewrite N.eqb_sym, (Hp x Hx). reflexivity.
  - apply forallb_forall. rewrite Forall_forall in Ha. intros x Hx.
    rewrite N.eqb_sym, (Ha x Hx). reflexivity.
  - unfold not_embedded_or_remote in Hl |- *.
    apply negb_true_iff in Hl. apply negb_true_iff.
    apply orb_false_iff in Hl. destruct Hl as [Hl H3].
    apply orb_false_iff in Hl. destruct Hl as [H1 H2].
    rewrite !orb_false_iff. repeat split.
    + destruct (starts_with (u "data:") (c :: t)) eqn:S; [|reflexivity].
      rewrite (starts_with_more _ _ (41%N :: rest) S) in H1. discriminate H1.
    + destruct (starts_with (u "http://") (c :: t)) eqn:S; [|reflexivity].
      rewrite (starts_with_more _ _ (41%N :: rest) S) in H2. discriminate H2.
    + destruct (starts_with (u "https://") (c :: t)) eqn:S; [|reflexivity].
      rewrite (starts_with_more _ _ (41%N :: rest) S) in H3. discriminate H3.
  - rewrite Es. do 4 f_equal.
    assert (L : span_end m = span_start m + (span_end m - span_start m))
      by lia.
    rewrite L, skipn_plus, Es, Hn. clear.
    set (x := u "![" ++ a ++ u "](" ++ (c :: t) ++ [41%N]).
    assert (X : u "![" ++ a ++ u "](" ++ (c :: t) ++ 41%N :: rest
                = x ++ rest).
    { unfold x. rewrite <- !app_assoc. reflexivity. }
    assert (Lx : 2 + List.length a + 2 + List.length (c :: t) + 1
                 = List.length x).
    { unfold x. rewrite !length_app. cbn [List.length u map
        list_ascii_of_string]. lia. }
    rewrite X, Lx, skipn_app, skipn_all, Nat.sub_diag. reflexivity.
Qed.

Lemma local_image_path_is_local_witness :
  exists c t,
    u "HTTP://x/a.png" = c :: t
    /\ forallb (fun x => negb (x =? 41)%N) (u "HTTP://x/a.png") = true
    /\ forallb (fun x => negb (x =? 93)%N) (u "y") = true
    /\ not_embedded_or_remote (u "HTTP://x/a.png") = true
    /\ skipn 21 (u "![x](http://x/a.png) ![y](HTTP://x/a.png)")
       = u "![" ++ u "y" ++ u "](" ++ u "HTTP://x/a.png" ++ u ")"
           ++ skipn 41 (u "![x](http://x/a.png) ![y](HTTP://x/a.png)").
Proof.
  apply (local_image_path_is_local
           (u "![x](http://x/a.png) ![y](HTTP://x/a.png)")
           {| span_start := 21; span_end := 41;
              groups := [u "y"; u "HTTP://x/a.png"] |}).
  vm_compute. left. reflexivity.
Defined.

(** X18: a reference to a file that exists and cannot be read (a
    directory, for one) makes [embed_local_images] raise: the exception of
    [open] is not caught. *)
Theorem embed_local_images_raises_on_unreadable_file
    joinpath guess_type fs base_dir content m :
  In m (finditer local_image content) ->
  path_exists fs (joinpath base_dir (group 2 m)) = Some true ->
  file_bytes fs (joinpath base_dir (group 2 m)) = None ->
  embed_local_images joinpath guess_type fs content base_dir = None.
Proof.
  intros Hin Hx Hb. unfold embed_local_images.
  destruct (finditer local_image content) as [|m0 ms] eqn:F;
    [contradiction|].
  destruct (local_replacements joinpath guess_type fs base_dir (m0 :: ms))
    as [[rs log]|] eqn:L; [|reflexivity].
  apply local_replacements_returned in L.
  unfold readable in L. rewrite Forall_forall in L.
  destruct (L m Hin) as (answer & X & Hd).
  rewrite Hx in X. injection X as <-.
  destruct (Hd eq_refl) as (d & Hd'). rewrite Hb in Hd'. discriminate Hd'.
Qed.

Lemma embed_local_images_raises_on_unreadable_file_witness :
  embed_local_images slash (fun _ => None) one_directory
    (u "![x](img) and ![y](b.png)") (u "post")
  = None.
Proof.
  apply (embed_local_images_raises_on_unreadable_file slash (fun _ => None)
           one_directory (u "post") (u "![x](img) and ![y](b.png)")
           {| span_start := 0; span_end := 9; groups := [u "x"; u "img"] |});
    [vm_compute; left; reflexivity | reflexivity | reflexivity].
Defined.

(** ** What [apply_inline_styles] changes *)

Lemma get_attr_set_attr_other attrs key value key' :
  key' <> key ->
  get_attr (set_attr attrs key value) key' = get_attr attrs key'.
Proof.
  intros H. induction attrs as [|[k v] attrs IH]; cbn [set_attr get_attr].
  - destruct (String.eqb key key') eqn:E; [|reflexivity].
    apply String.eqb_eq in E. congruence.
  - destruct (String.eqb k key) eqn:E; cbn [get_attr].
    + apply String.eqb_eq in E. subst k.
      destruct (String.eqb key key') eqn:E'; [|reflexivity].
      apply String.eqb_eq in E'. congruence.
    + rewrite IH. reflexivity.
Qed.

Lemma set_attr_new attrs key value :
  get_attr attrs key = None ->
  set_attr attrs key value = attrs ++ [(key, value)].
Proof.
  induction attrs as [|[k v] attrs IH]; cbn [set_attr get_attr app];
    [reflexivity|].
  destruct (String.eqb k key); [discriminate|].
  intros H. rewrite (IH H). reflexivity.
Qed.

Lemma restyle_element_other tag new_style up attrs key :
  key <> "style" ->
  get_attr (restyle_element tag new_style up attrs) key = get_attr attrs key.
Proof.
  intros H. unfold restyle_element.
  destruct (String.eqb tag "code"); [destruct (String.eqb up "pre")|];
    try reflexivity; apply get_attr_set_attr_other, H.
Qed.

Lemma restyled_attrs_other name up attrs key :
  key <> "style" ->
  get_attr (restyled_attrs name up attrs) key = get_attr attrs key.
Proof.
  intros H. unfold restyled_attrs. generalize get_style_mapping as m.
  intros m; revert attrs.
  induction m as [|[tag st] m IH]; intros attrs; [reflexivity|].
  cbn [fold_left].
  destruct (page_level tag); [apply IH|].
  destruct (String.eqb name tag); [|apply IH].
  rewrite IH. apply restyle_element_other, H.
Qed.

Lemma inlined_attrs_other lead name up attrs key :
  key <> "style" ->
  get_attr (inlined_attrs lead name up attrs) key = get_attr attrs key.
Proof.
  intros H. unfold inlined_attrs. destruct lead.
  - rewrite get_attr_set_attr_other by exact H.
    apply restyled_attrs_other, H.
  - apply restyled_attrs_other, H.
Qed.

Lemma get_text_erase_style l : get_text (map erase_style l) = get_text l.
Proof.
  unfold get_text.
  rewrite flat_map_concat_map, map_map, <- flat_map_concat_map.
  rewrite (flat_map_ext_Forall _ stripped_strings)
    by (apply Forall_forall; intros k _; apply stripped_strings_erase_style).
  reflexivity.
Qed.

Lemma find_all_erase_style t l : find_all t (map erase_style l) = find_all t l.
Proof.
  unfold find_all. rewrite below_map. apply below_ext.
  apply Forall_forall. intros k _. apply find_all_from_erase_style.
Qed.

(** X19: [apply_inline_styles] changes [style] attributes and nothing
    else: the elements, their names, their places and their other
    attributes, and the text, are as before. *)
Theorem apply_inline_styles_changes_styles_only s :
  map erase_style (apply_inline_styles s) = map erase_style s
  /\ get_text (apply_inline_styles s) = get_text s
  /\ (forall t, find_all t (apply_inline_styles s) = find_all t s)
  /\ (forall p,
        match element_at document (apply_inline_styles s) p,
              element_at document s p with
        | Some (up', name', attrs'), Some (up, name, attrs) =>
            up' = up /\ name' = name
            /\ forall key, key <> "style" ->
                           get_attr attrs' key = get_attr attrs key
        | None, None => True
        | _, _ => False
        end).
Proof.
  pose proof (erase_style_apply_inline_styles s) as E.
  split; [exact E|]. split; [|split].
  - rewrite <- (get_text_erase_style (apply_inline_styles s)), E.
    apply get_text_erase_style.
  - intros t.
    rewrite <- (find_all_erase_style t (apply_inline_styles s)), E.
    apply find_all_erase_style.
  - intros p. rewrite element_at_apply_inline_styles.
    destruct (element_at document s p) as [[[up name] attrs]|];
      cbn [option_map]; [|exact I].
    split; [reflexivity|]. split; [reflexivity|].
    intros key H. apply inlined_attrs_other, H.
Qed.

(** X20: an element of one of the styled tags that has no [style]
    attribute gets one, after its other attributes: the mapped style and a
    space, with the lead paragraph style and a space before them on the
    first [p]. *)
Theorem apply_inline_styles_adds_missing_style s p up name attrs :
  element_at document s p = Some (up, name, attrs) ->
  In name mapped_tags ->
  get_attr attrs "style" = None ->
  element_at document (apply_inline_styles s) p
  = Some (up, name,
          attrs
            ++ [("style",
                 (if is_first_p s p then first_p_style ++ u " " else [])
                   ++ style_of name ++ u " ")]).
Proof.
  intros E Hname Hstyle.
  rewrite element_at_apply_inline_styles, E. cbn [option_map].
  unfold inlined_attrs. rewrite restyled_attrs_mapped by assumption.
  assert (Hget : get attrs "style" [] = [])
    by (unfold get; rewrite Hstyle; reflexivity).
  rewrite Hget, app_nil_r.
  destruct (is_first_p s p).
  - rewrite get_set_attr, set_attr_twice, <- app_assoc.
    rewrite (set_attr_new attrs "style" _ Hstyle). reflexivity.
  - rewrite (set_attr_new attrs "style" _ Hstyle). reflexivity.
Qed.

Lemma apply_inline_styles_adds_missing_style_witness :
  element_at document (apply_inline_styles inline_and_block_code) [0]
  = Some (document, "p",
          [] ++ [("style",
                  (if is_first_p inline_and_block_code [0]
                   then first_p_style ++ u " " else [])
                    ++ style_of "p" ++ u " ")]).
Proof.
  apply (apply_inline_styles_adds_missing_style inline_and_block_code [0]
           document "p" []);
    [reflexivity|unfold mapped_tags; simpl; tauto|reflexivity].
Defined.

Lemma inlined_style_mapped lead name up attrs :
  In name mapped_tags ->
  get_attr (inlined_attrs lead name up attrs) "style"
  = Some ((if lead then first_p_style ++ u " " else [])
            ++ style_of name ++ u " " ++ get attrs "style" []).
Proof.
  intros Hname. unfold inlined_attrs.
  rewrite restyled_attrs_mapped by assumption.
  destruct lead.
  - rewrite get_attr_set_attr, get_set_attr, <- app_assoc. reflexivity.
  - rewrite get_attr_set_attr. reflexivity.
Qed.

Lemma is_first_p_apply_inline_styles s p :
  is_first_p (apply_inline_styles s) p = is_first_p s p.
Proof.
  unfold is_first_p, find.
  rewrite <- (find_all_erase_style "p" (apply_inline_styles s)).
  rewrite erase_style_apply_inline_styles, find_all_erase_style.
  reflexivity.
Qed.

(** X21: every run of [apply_inline_styles] prepends the same styles
    again: on an element of a styled tag, two runs leave what one run adds
    twice before the style the element had. *)
Theorem apply_inline_styles_twice s p up name attrs :
  element_at document s p = Some (up, name, attrs) ->
  In name mapped_tags ->
  exists attrs1 attrs2,
    element_at document (apply_inline_styles s) p = Some (up, name, attrs1)
    /\ element_at document (apply_inline_styles (apply_inline_styles s)) p
       = Some (up, name, attrs2)
    /\ get_attr attrs1 "style"
       = Some (((if is_first_p s p then first_p_style ++ u " " else [])
                  ++ style_of name ++ u " ")
                 ++ get attrs "style" [])
    /\ get_attr attrs2 "style"
       = Some (((if is_first_p s p then first_p_style ++ u " " else [])
                  ++ style_of name ++ u " ")
                 ++ ((if is_first_p s p then first_p_style ++ u " " else [])
                       ++ style_of name ++ u " ")
                 ++ get attrs "style" []).
Proof.
  intros E Hname.
  assert (E1 := element_at_apply_inline_styles s p).
  rewrite E in E1. cbn [option_map] in E1.
  assert (E2 := element_at_apply_inline_styles (apply_inline_styles s) p).
  rewrite E1 in E2. cbn [option_map] in E2.
  rewrite is_first_p_apply_inline_styles in E2.
  do 2 eexists. split; [exact E1|]. split; [exact E2|].
  assert (G : get (inlined_attrs (is_first_p s p) name up attrs) "style" []
              = (if is_first_p s p then first_p_style ++ u " " else [])
                  ++ style_of name ++ u " " ++ get attrs "style" [])
    by (unfold get at 1; rewrite inlined_style_mapped by assumption;
        reflexivity).
  rewrite !inlined_style_mapped by assumption. rewrite G.
  rewrite <- !app_assoc. split; reflexivity.
Qed.

Lemma apply_inline_styles_twice_witness :
  exists attrs1 attrs2,
    element_at document (apply_inline_styles styled_heading_and_paragraphs)
      [1]
    = Some (document, "p", attrs1)
    /\ element_at document
         (apply_inline_styles
            (apply_inline_styles styled_heading_and_paragraphs)) [1]
       = Some (document, "p", attrs2)
    /\ get_attr attrs1 "style"
       = Some (((if is_first_p styled_heading_and_paragraphs [1]
                 then first_p_style ++ u " " else [])
                  ++ style_of "p" ++ u " ")
                 ++ get [("class", u "lead"); ("style", u "margin: 0")]
                      "style" [])
    /\ get_attr attrs2 "style"
       = Some (((if is_first_p styled_heading_and_paragraphs [1]
                 then first_p_style ++ u " " else [])
                  ++ style_of "p" ++ u " ")
                 ++ ((if is_first_p styled_heading_and_paragraphs [1]
                      then first_p_style ++ u " " else [])
                       ++ style_of "p" ++ u " ")
                 ++ get [("class", u "lead"); ("style", u "margin: 0")]
                      "style" []).
Proof.
  apply (apply_inline_styles_twice styled_heading_and_paragraphs [1]
           document "p" [("class", u "lead"); ("style", u "margin: 0")]);
    [reflexivity|unfold mapped_tags; simpl; tauto].
Defined.

(** ** What [calibrate_code] keeps *)

Lemma length_below (f : node -> list path) l : forall i,
  List.length (below f i l)
  = list_sum (map (fun k => List.length (f k)) l).
Proof.
  induction l as [|k l IH]; intros i; cbn [below map list_sum];
    [reflexivity|].
  rewrite length_app, length_map, IH. reflexivity.
Qed.

Lemma list_sum_flat_map {A B} (g : B -> nat) (f : A -> list B) l :
  list_sum (map g (flat_map f l))
  = list_sum (map (fun x => list_sum (map g (f x))) l).
Proof.
  induction l as [|x l IH]; cbn [flat_map map list_sum]; [reflexivity|].
  rewrite map_app, list_sum_app, IH. reflexivity.
Qed.

Lemma images_remove_empty_p n :
  list_sum (map (fun k => List.length (find_all_from "img" k))
              (remove_empty_p n))
  = List.length (find_all_from "img" n).
Proof.
  induction n as [name attrs contents IH| |] using node_forall_ind;
    [|reflexivity|reflexivity].
  cbn [remove_empty_p].
  destruct (String.eqb name "p" && vacuous contents) eqn:E.
  - apply andb_prop in E. destruct E as [En Ev].
    apply String.eqb_eq in En. subst name.
    cbn [map list_sum find_all_from]. change (String.eqb "p" "img") with false.
    cbn [app]. unfold vacuous, find in Ev.
    destruct (get_text contents); [|discriminate Ev].
    fold (find_all "img" contents).
    destruct (find_all "img" contents); [reflexivity|discriminate Ev].
  - cbn [map find_all_from].
    change (list_sum [?x]) with (x + 0). rewrite Nat.add_0_r.
    rewrite !length_app, !length_below. f_equal.
    rewrite list_sum_flat_map. f_equal.
    apply map_ext_Forall. exact IH.
Qed.

(** X22: [calibrate_code] keeps the text and the images of the document:
    the text that [get_text] gives and the number of [img] elements are
    those of the parsed document. *)
Theorem calibrate_soup_keeps_text_and_images s :
  get_text (calibrate_soup s) = get_text s
  /\ List.length (find_all "img" (calibrate_soup s))
     = List.length (find_all "img" s).
Proof.
  unfold calibrate_soup. split.
  - rewrite get_text_remove_empty_paragraphs.
    rewrite <- (get_text_erase_style (apply_inline_styles s)).
    rewrite erase_style_apply_inline_styles. apply get_text_erase_style.
  - transitivity (List.length (find_all "img" (apply_inline_styles s))).
    + unfold find_all, remove_empty_paragraphs.
      rewrite !length_below, list_sum_flat_map. f_equal.
      apply map_ext_Forall, Forall_forall. intros n _.
      apply images_remove_empty_p.
    + rewrite <- (find_all_erase_style "img" (apply_inline_styles s)).
      rewrite erase_style_apply_inline_styles, find_all_erase_style.
      reflexivity.
Qed.

Lemma restyle_unnamed tag new_style n : forall parent,
  find_all_from tag n = [] -> restyle tag new_style parent n = n.
Proof.
  induction n as [name attrs contents IH| |] using node_forall_ind;
    intros parent H; [|reflexivity|reflexivity].
  cbn [find_all_from] in H. cbn [restyle].
  destruct (String.eqb name tag); [discriminate H|].
  cbn [app] in H. apply below_nil_iff in H. f_equal.
  rewrite <- (map_id contents) at 2. apply map_ext_Forall.
  rewrite Forall_forall in IH, H |- *. intros k Hk.
  apply (IH k Hk), (H k Hk).
Qed.

Lemma remove_empty_p_without_p n :
  find_all_from "p" n = [] -> remove_empty_p n = [n].
Proof.
  induction n as [name attrs contents IH| |] using node_forall_ind;
    intros H; [|reflexivity|reflexivity].
  cbn [find_all_from] in H. cbn [remove_empty_p].
  destruct (String.eqb name "p"); [discriminate H|].
  cbn [app andb] in H |- *. apply below_nil_iff in H. do 2 f_equal.
  rewrite Forall_forall in IH, H. clear - IH H.
  induction contents as [|k l IHl]; [reflexivity|].
  cbn [flat_map]. rewrite (IH k (or_introl eq_refl) (H k (or_introl eq_refl))).
  cbn [app]. f_equal.
  apply IHl; intros x Hx; [apply IH|apply H]; right; exact Hx.
Qed.

(** X24: a document without any of the tags that are styled is left as it
    is: nothing is inlined and nothing is removed. *)
Theorem calibrate_soup_without_styled_tags s :
  forallb
    (fun tag => match find_all tag s with [] => true | _ :: _ => false end)
    ("code" :: mapped_tags) = true ->
  apply_inline_styles s = s /\ calibrate_soup s = s.
Proof.
  intros H. rewrite forallb_forall in H.
  assert (Hnone : forall tag, In tag ("code" :: mapped_tags) ->
                              find_all tag s = []).
  { intros tag Hin. specialize (H tag Hin).
    destruct (find_all tag s); [reflexivity|discriminate H]. }
  assert (Hstyle : apply_inline_styles s = s).
  { unfold apply_inline_styles, style_first_p.
    rewrite apply_tag_styles_restyle_tags.
    assert (R : restyle_tags document s = s).
    { unfold restyle_tags.
      assert (G : forall m,
                 (forall tag st, In (tag, st) m ->
                                 page_level tag = true
                                 \/ find_all tag s = []) ->
                 fold_left
                   (fun s0 '(tag, new_style) =>
                      if page_level tag then s0
                      else map (restyle tag new_style document) s0) m s = s).
      { induction m as [|[tag st] m IH]; intros Hm; [reflexivity|].
        cbn [fold_left].
        destruct (Hm tag st (or_introl eq_refl)) as [P|F].
        - rewrite P. apply IH. intros t x Hx. apply (Hm t x). right; exact Hx.
        - destruct (page_level tag).
          + apply IH. intros t x Hx. apply (Hm t x). right; exact Hx.
          + replace (map (restyle tag st document) s) with s.
            * apply IH. intros t x Hx. apply (Hm t x). right; exact Hx.
            * rewrite <- (map_id s) at 1. apply map_ext_Forall.
              unfold find_all in F. apply below_nil_iff in F.
              rewrite Forall_forall in F |- *. intros k Hk.
              symmetry. apply restyle_unnamed, (F k Hk). }
      apply G. intros tag st Hin.
      unfold get_style_mapping in Hin. cbn [In] in Hin.
      repeat (destruct Hin as [Hin|Hin];
              [injection Hin as <- _;
               first [left; reflexivity
                     |right; apply Hnone; unfold mapped_tags; simpl; tauto]
              |]).
      contradiction. }
    rewrite R. unfold find.
    rewrite (Hnone "p") by (unfold mapped_tags; simpl; tauto).
    reflexivity. }
  split; [exact Hstyle|].
  unfold calibrate_soup. rewrite Hstyle. unfold remove_empty_paragraphs.
  assert (P : find_all "p" s = [])
    by (apply Hnone; unfold mapped_tags; simpl; tauto).
  unfold find_all in P. apply below_nil_iff in P.
  rewrite Forall_forall in P. clear - P.
  induction s as [|k l IH]; [reflexivity|].
  cbn [flat_map].
  rewrite (remove_empty_p_without_p k (P k (or_introl eq_refl))).
  cbn [app]. f_equal. apply IH. intros x Hx. apply P. right; exact Hx.
Qed.

Lemma calibrate_soup_without_styled_tags_witness :
  apply_inline_styles
    [Tag "div" [("class", u "note")]
       [NavigableString (u "x"); Tag "br" [] []]]
  = [Tag "div" [("class", u "note")]
       [NavigableString (u "x"); Tag "br" [] []]]
  /\ calibrate_soup
       [Tag "div" [("class", u "note")]
          [NavigableString (u "x"); Tag "br" [] []]]
     = [Tag "div" [("class", u "note")]
          [NavigableString (u "x"); Tag "br" [] []]].
Proof.
  apply (calibrate_soup_without_styled_tags
           [Tag "div" [("class", u "note")]
              [NavigableString (u "x"); Tag "br" [] []]]).
  reflexivity.
Defined.

(** ** The shape of the title *)

Lemma rest_of_line_shape s l :
  rest_of_line s = Some l ->
  exists c t, l = c :: t /\ forallb (fun x => negb (x =? 10)%N) l = true.
Proof.
  unfold rest_of_line. pose proof (break_on_fst (N.eqb 10) s) as F.
  destruct (fst (break_on (N.eqb 10) s)) as [|c t]; [discriminate|].
  intros H. injection H as <-. exists c, t. split; [reflexivity|].
  apply forallb_forall. intros x Hx. rewrite Forall_forall in F.
  rewrite N.eqb_sym, (F x Hx). reflexivity.
Qed.

Lemma greedy_space_shape ws : forall rest l,
  greedy_space ws rest = Some l ->
  exists c t, l = c :: t /\ forallb (fun x => negb (x =? 10)%N) l = true.
Proof.
  induction ws as [|w ws IH]; intros rest l; cbn [greedy_space].
  - apply rest_of_line_shape.
  - destruct (greedy_space ws rest) as [l'|] eqn:G.
    + intros H. injection H as <-. apply (IH rest l' G).
    + apply rest_of_line_shape.
Qed.

Lemma search_title_shape s : forall b l,
  search_title b s = Some l ->
  exists c t, l = c :: t /\ forallb (fun x => negb (x =? 10)%N) l = true.
Proof.
  induction s as [|c s IH]; intros b l; cbn [search_title]; [discriminate|].
  destruct (if b then title_line (c :: s) else None) as [l'|] eqn:T.
  - intros H. injection H as <-. destruct b; [|discriminate T].
    unfold title_line in T. destruct s as [|w s1]; [discriminate T|].
    destruct ((c =? 35)%N && is_space w); [|discriminate T].
    destruct (break_on (fun c0 => negb (is_space c0)) s1) as [ws rest].
    apply (greedy_space_shape ws rest l' T).
  - apply IH.
Qed.

(** X23: the title [main] uses is never empty and holds no line feed. *)
Theorem title_of_is_one_line content :
  exists c t,
    title_of content = c :: t
    /\ forallb (fun x => negb (x =? 10)%N) (title_of content) = true.
Proof.
  unfold title_of. destruct (search_title true content) as [l|] eqn:S.
  - destruct (search_title_shape content true l S) as (c & t & -> & H).
    exists c, t. auto.
  - do 2 eexists. split; reflexivity.
Qed.
